(** * neohtop: the process-list filter and ranking engine

    A shallow embedding of [src/lib/utils/index.ts]: [filterProcesses],
    [compareValue] and [sortProcesses], together with the facts about them
    that the design document of the repository states.

    Conventions of the embedding.
    - A JavaScript [number] is denoted by its exact value, a rational [Q]
      (an integer field of a record by a [Z]). Comparisons of numbers are
      comparisons of these values. The arithmetic of the comparator and of
      the filter ([+], [-], [*], [/]) is that of binary64: the exact result
      rounded to 53 significant bits, to nearest, ties to even (module
      [Double]). The exponent range is not modelled: no operation of this
      program overflows on counters that a 64-bit backend can send, and a
      sum or difference of two doubles that falls below the normal range
      is exact. [NaN] and the infinities are not modelled.
    - A JavaScript string is a [string] holding its UTF-8 bytes. Substring
      search and splitting at a comma are the same on the UTF-16 code units
      of well-formed text and on its UTF-8 bytes. Case mapping and trimming
      need the Unicode tables and are taken from the runtime.
    - Arrays are objects: an array variable holds a location [loc] in a
      store, so that "the same array" and "a new array" are different things.
    - The two module-level [Map]s ([regexCache], [isPinned]) are part of the
      store and the functions are written in a state-and-exception monad. *)

From Stdlib Require Import QArith Qround Qpower Qreduction.
From Stdlib Require Import ZArith String Ascii DecimalString.
From Stdlib Require Import Lia Lqa Sorted.
From stdpp Require Import gmap strings list.

Local Open Scope Z_scope.

(** ** String primitives of the JavaScript runtime *)

Module Js.

(** [s.split(sep)] for a one-character separator; the result always has
    at least one element (the empty string splits into one empty piece). *)
Fixpoint split (sep : ascii) (s : string) : list string :=
  match s with
  | EmptyString => [EmptyString]
  | String c s' =>
      if Ascii.eqb c sep then EmptyString :: split sep s'
      else match split sep s' with
           | piece :: pieces => String c piece :: pieces
           | [] => [String c EmptyString]
           end
  end.

(** [s.includes(t)]: [t] occurs in [s] as a contiguous substring. *)
Fixpoint includes (s t : string) : bool :=
  String.prefix t s ||
  match s with
  | EmptyString => false
  | String _ s' => includes s' t
  end.

(** [n.toString()] of an integer: decimal digits, with a leading minus
    sign for negatives. *)
Definition toString (n : Z) : string := NilZero.string_of_int (Z.to_int n).

(** [arr.includes(x)] on an array of strings. *)
Definition array_includes (arr : list string) (x : string) : bool :=
  existsb (String.eqb x) arr.

End Js.

(** ** Binary64 arithmetic *)

Module Double.

(** 2^z *)
Definition pow2 (z : Z) : Q := (2 ^ z)%Q.

(** The integer part of the binary logarithm of a positive rational. The
    difference of the logarithms of numerator and denominator is it or one
    more; the test settles which. *)
Definition log2_floor (a : Q) : Z :=
  let k := Z.log2 (Qnum a) - Z.log2 (Zpos (Qden a)) in
  if Qle_bool (pow2 k) a then k else k - 1.

(** The nearest integer, the even one of two that are equally near. *)
Definition nearest_even (q : Q) : Z :=
  let f := Qfloor q in
  match (q - inject_Z f ?= 1 # 2)%Q with
  | Lt => f
  | Gt => f + 1
  | Eq => if Z.even f then f else f + 1
  end.

(** A positive number rounded to a significand of 53 bits: scaled into
    [2^52, 2^53), rounded to an integer, scaled back. *)
Definition round_positive (a : Q) : Q :=
  let e := log2_floor a - 52 in
  (inject_Z (nearest_even (a / pow2 e)) * pow2 e)%Q.

(** Round to nearest, ties to even; the result is a reduced fraction. *)
Definition round (x : Q) : Q :=
  let x' := Qred x in
  Qred match Qnum x' with
       | Z0 => 0
       | Zpos _ => round_positive x'
       | Zneg _ => - round_positive (- x')
       end.

(** [x + y], [x - y], [x * y], [x / y] on numbers. *)
Definition add (x y : Q) : Q := round (x + y).
Definition sub (x y : Q) : Q := round (x - y).
Definition mul (x y : Q) : Q := round (x * y).
Definition div (x y : Q) : Q := round (x / y).

End Double.

Arguments Double.round : simpl never.
Arguments Double.add : simpl never.
Arguments Double.sub : simpl never.
Arguments Double.mul : simpl never.
Arguments Double.div : simpl never.

(** ** Data model *)

(** Modelled from the spec: the [Process] type of [$lib/types] is imported by
    the source but is not part of it; the record has the attributes that
    section 3 of the design document lists, with [status] a string because
    the source looks it up in a [string[]]. *)
Record Process := mkProcess {
  pid : Z;
  name : string;
  command : string;
  status : string;
  cpu_usage : Q;
  memory_usage : Z;
  run_time : Z;
  disk_usage : Z * Z;   (* [read_bytes, written_bytes] *)
}.

(** [keyof Process] *)
Inductive ProcessKey :=
| K_pid | K_name | K_command | K_status
| K_cpu_usage | K_memory_usage | K_run_time | K_disk_usage.

#[global] Instance ProcessKey_eq_dec : EqDecision ProcessKey.
Proof. solve_decision. Defined.

(** The value of a property read by name, [process[key]]. *)
Inductive PropertyValue :=
| VNumber (x : Q)
| VString (s : string)
| VPair (read written : Z).

Definition get (p : Process) (k : ProcessKey) : PropertyValue :=
  match k with
  | K_pid => VNumber (inject_Z (pid p))
  | K_name => VString (name p)
  | K_command => VString (command p)
  | K_status => VString (status p)
  | K_cpu_usage => VNumber (cpu_usage p)
  | K_memory_usage => VNumber (inject_Z (memory_usage p))
  | K_run_time => VNumber (inject_Z (run_time p))
  | K_disk_usage => VPair (fst (disk_usage p)) (snd (disk_usage p))
  end.

Inductive Direction := asc | desc.

(** Modelled from the spec: [SortConfig] of [$lib/types],
    [{field, direction: asc|desc}]. *)
Record SortConfig := mkSortConfig {
  field : ProcessKey;
  direction : Direction;
}.

(** A numeric clause [{operator, value, enabled}]. *)
Record NumericFilter := mkNumericFilter {
  operator : string;
  value : Q;
  enabled : bool;
}.

(** The status clause [{values, enabled}]. *)
Record StatusFilter := mkStatusFilter {
  values : list string;
  status_enabled : bool;
}.

(** The [filters] parameter of [filterProcesses]. *)
Record Filters := mkFilters {
  cpu : NumericFilter;
  ram : NumericFilter;
  runtime : NumericFilter;
  status_filter : StatusFilter;
}.

(** A compiled pattern [new RegExp(source, "i")]; the flags are always
    ["i"], so the object is determined by its source text. *)
Record RegExp := mkRegExp { source : string }.

(** What the embedding takes from the JavaScript runtime without defining
    it: the Unicode case mapping and white space, the regular-expression
    engine and locale-aware string collation. *)
Class Runtime := {
  (** [s.toLowerCase()] *)
  toLowerCase : string -> string;
  (** [s.trim()] *)
  trim : string -> string;
  (** [new RegExp(p, "i")] does not raise [SyntaxError] *)
  regexp_syntax_ok : string -> bool;
  (** [new RegExp(p, "i").test(s)], for a well-formed [p] *)
  regexp_test_i : string -> string -> bool;
  (** [s.localeCompare(t)] *)
  localeCompare : string -> string -> Z;
}.

(** ** The store and the monad *)

Definition loc := positive.

Record State := mkState {
  arrays : gmap loc (list Process);
  regexCache : gmap string RegExp;
  isPinned : gmap string bool;
}.

Inductive exn := SyntaxError | TypeError.

Inductive completion (A : Type) :=
| Normal (a : A)
| Throw (e : exn).
Arguments Normal {A} a.
Arguments Throw {A} e.

Definition M (A : Type) : Type := State -> completion A * State.

Definition ret {A} (a : A) : M A := fun s => (Normal a, s).

Definition bind {A B} (m : M A) (k : A -> M B) : M B :=
  fun s =>
    match m s with
    | (Normal a, s') => k a s'
    | (Throw e, s') => (Throw e, s')
    end.

Definition throw {A} (e : exn) : M A := fun s => (Throw e, s).

(** [try { body } catch { handler }]: the store changes made by [body]
    before it raised are kept. *)
Definition try_catch {A} (body : M A) (handler : M A) : M A :=
  fun s =>
    match body s with
    | (Normal a, s') => (Normal a, s')
    | (Throw _, s') => handler s'
    end.

Notation "'let*' x ':=' m 'in' k" := (bind m (fun x => k))
  (at level 10, x name, m at level 100, k at level 200,
   format "'[v' 'let*'  x  ':='  m  'in' '/' k ']'").

(** Reading the elements of an array object. A location outside the store
    is a dangling reference, which JavaScript cannot produce. *)
Definition array_read (l : loc) : M (list Process) :=
  fun s =>
    match arrays s !! l with
    | Some elems => (Normal elems, s)
    | None => (Throw TypeError, s)
    end.

(** Allocating a new array object with the given elements. *)
Definition array_alloc (elems : list Process) : M loc :=
  fun s =>
    let l := fresh (dom (arrays s)) in
    (Normal l,
     {| arrays := <[l := elems]> (arrays s);
        regexCache := regexCache s;
        isPinned := isPinned s |}).

(** Overwriting the elements of an existing array object. *)
Definition array_write (l : loc) (elems : list Process) : M unit :=
  fun s =>
    (Normal tt,
     {| arrays := <[l := elems]> (arrays s);
        regexCache := regexCache s;
        isPinned := isPinned s |}).

Definition regexCache_get (term : string) : M (option RegExp) :=
  fun s => (Normal (regexCache s !! term), s).

Definition regexCache_set (term : string) (r : RegExp) : M unit :=
  fun s =>
    (Normal tt,
     {| arrays := arrays s;
        regexCache := <[term := r]> (regexCache s);
        isPinned := isPinned s |}).

Definition isPinned_clear : M unit :=
  fun s =>
    (Normal tt,
     {| arrays := arrays s; regexCache := regexCache s; isPinned := ∅ |}).

Definition isPinned_set (k : string) (v : bool) : M unit :=
  fun s =>
    (Normal tt,
     {| arrays := arrays s;
        regexCache := regexCache s;
        isPinned := <[k := v]> (isPinned s) |}).

(** [new RegExp(term, "i")] *)
Definition new_RegExp {rt : Runtime} (term : string) : M RegExp :=
  if regexp_syntax_ok term then ret (mkRegExp term) else throw SyntaxError.

(** [regex.test(s)]; without the [g] and [y] flags the call does not touch
    the object. *)
Definition RegExp_test {rt : Runtime} (regex : RegExp) (s : string) : bool :=
  regexp_test_i (source regex) s.

(** ** Array methods that take a callback *)

(** [arr.some(f)]: stops at the first element for which [f] answers true. *)
Fixpoint array_some {A} (f : A -> M bool) (arr : list A) : M bool :=
  match arr with
  | [] => ret false
  | x :: rest =>
      let* b := f x in
      if b : bool then ret true else array_some f rest
  end.

(** [arr.filter(f)]: calls [f] on every element, in order. *)
Fixpoint array_filter {A} (f : A -> M bool) (arr : list A) : M (list A) :=
  match arr with
  | [] => ret []
  | x :: rest =>
      let* b := f x in
      let* kept := array_filter f rest in
      ret (if b : bool then x :: kept else kept)
  end.

(** [arr.sort(compareFn)]. ECMAScript fixes that the sort is stable and that
    only the sign of the comparator's result is used, and leaves the
    algorithm open; the embedding takes a stable insertion sort. An element
    goes in front of the first element that it does not compare greater
    than. *)
Fixpoint sort_insert {A} (compareFn : A -> A -> M Q) (x : A) (sorted : list A)
  : M (list A) :=
  match sorted with
  | [] => ret [x]
  | y :: rest =>
      let* v := compareFn x y in
      if Qle_bool v 0 then ret (x :: y :: rest)
      else let* rest' := sort_insert compareFn x rest in ret (y :: rest')
  end.

Fixpoint sort_elems {A} (compareFn : A -> A -> M Q) (arr : list A)
  : M (list A) :=
  match arr with
  | [] => ret []
  | x :: rest =>
      let* sorted := sort_elems compareFn rest in
      sort_insert compareFn x sorted
  end.

(** The sort is in place and returns the array it was called on. *)
Definition array_sort (l : loc) (compareFn : Process -> Process -> M Q)
  : M loc :=
  let* elems := array_read l in
  let* sorted := sort_elems compareFn elems in
  let* _ := array_write l sorted in
  ret l.

(** ** [compareValue] *)

Definition Qlt_bool (x y : Q) : bool := negb (Qle_bool y x).

(** Helper function to compare values based on operator. *)
Definition compareValue (value : Q) (operator : string) (target : Q) : bool :=
  if String.eqb operator ">" then Qlt_bool target value
  else if String.eqb operator "<" then Qlt_bool value target
  else if String.eqb operator "=" then Qeq_bool value target
  else if String.eqb operator ">=" then Qle_bool target value
  else if String.eqb operator "<=" then Qle_bool value target
  else true.

(** ** [filterProcesses] *)

Section FilterProcesses.
Context {rt : Runtime}.

(** The callback of [terms.some(...)]. *)
Definition term_callback
    (process : Process)
    (processNameLower processCommandLower processPidString : string)
    (term : string) : M bool :=
  let termLower := toLowerCase term in
  (* Try exact matches first (faster) *)
  if Js.includes processNameLower termLower
     || Js.includes processCommandLower termLower
     || Js.includes processPidString term
  then ret true
  else
    (* Try regex match last (slower) *)
    try_catch
      (let* cached := regexCache_get term in
       let* regex :=
         match cached with
         | Some regex => ret regex
         | None =>
             let* regex := new_RegExp term in
             let* _ := regexCache_set term regex in
             ret regex
         end in
       ret (RegExp_test regex (name process)))
      (ret false).

(** The callback of [processes.filter(...)]. *)
Definition filter_callback (filters : Filters) (terms : list string)
    (process : Process) : M bool :=
  (* Apply status filter *)
  if status_enabled (status_filter filters)
     && (0 <? length (values (status_filter filters)))%nat
     && negb (Js.array_includes (values (status_filter filters))
                                (status process))
  then ret false
  (* Apply CPU filter *)
  else if enabled (cpu filters)
     && negb (compareValue (cpu_usage process)
                           (operator (cpu filters)) (value (cpu filters)))
  then ret false
  (* Apply RAM filter (convert bytes to MB) *)
  else if enabled (ram filters)
     && negb (compareValue
                (Double.div (inject_Z (memory_usage process))
                            (Double.mul 1024 1024))
                (operator (ram filters)) (value (ram filters)))
  then ret false
  (* Apply runtime filter (convert to minutes) *)
  else if enabled (runtime filters)
     && negb (compareValue (Double.div (inject_Z (run_time process)) 60)
                           (operator (runtime filters))
                           (value (runtime filters)))
  then ret false
  (* Skip search if no terms *)
  else if (length terms =? 0)%nat then ret true
  else
    (* Cache lowercase values *)
    let processNameLower := toLowerCase (name process) in
    let processCommandLower := toLowerCase (command process) in
    let processPidString := Js.toString (pid process) in
    (* Check each term *)
    array_some
      (term_callback process
         processNameLower processCommandLower processPidString)
      terms.

(** [Object.values(filters).some((f) => f.enabled)] *)
Definition some_enabled (filters : Filters) : bool :=
  existsb id
    [ enabled (cpu filters); enabled (ram filters);
      enabled (runtime filters); status_enabled (status_filter filters) ].

(** Pre-processed search terms. *)
Definition search_terms (searchTerm : string) : list string :=
  if (0 <? String.length searchTerm)%nat
  then map trim (Js.split "," searchTerm)
  else [].

Definition filterProcesses (processes : loc) (searchTerm : string)
    (filters : Filters) : M loc :=
  (* Early return for empty search and no active filters *)
  if (String.length searchTerm =? 0)%nat && negb (some_enabled filters)
  then ret processes
  else
    let terms := search_terms searchTerm in
    let* elems := array_read processes in
    let* kept := array_filter (filter_callback filters terms) elems in
    array_alloc kept.

End FilterProcesses.

(** ** [sortProcesses] *)

Section SortProcesses.
Context {rt : Runtime}.

Definition direction_sign (d : Direction) : Q :=
  match d with asc => 1 | desc => -1 end.

(** [Math.max] on two numbers. *)
Definition Math_max (x y : Q) : Q := if Qle_bool x y then y else x.

(** [(v as [number, number])[i]] *)
Definition item (v : PropertyValue) (i : nat) : Q :=
  match v, i with
  | VPair read _, O => inject_Z read
  | VPair _ written, S O => inject_Z written
  | _, _ => 0
  end.

(** [v as string] *)
Definition as_string (v : PropertyValue) : string :=
  match v with VString str => str | _ => EmptyString end.

(** [Number(v)] *)
Definition Number (v : PropertyValue) : Q :=
  match v with VNumber x => x | _ => 0 end.

(** The comparator handed to [sort]. [item], [as_string] and [Number] are
    only applied to a value of the matching shape: the field is
    [disk_usage] where [item] is used, and both records are read at the
    same field, so [bValue] is a string when [aValue] is. *)
Definition compareFn (sortConfig : SortConfig) (pinnedProcesses : gset string)
    (a b : Process) : M Q :=
  (* Cache pinned status *)
  let aPin := bool_decide (command a ∈ pinnedProcesses) in
  let* _ := isPinned_set (command a) aPin in
  let bPin := bool_decide (command b ∈ pinnedProcesses) in
  let* _ := isPinned_set (command b) bPin in
  (* Quick pin comparison *)
  if negb (Bool.eqb aPin bPin) then ret (if aPin then -1 else 1)%Q
  else
    (* Only compute direction once *)
    let direction := direction_sign (direction sortConfig) in
    let aValue := get a (field sortConfig) in
    let bValue := get b (field sortConfig) in
    (* Special handling for disk_usage which is an array
       [read_bytes, written_bytes] *)
    if bool_decide (field sortConfig = K_disk_usage) then
      let aRead := item aValue 0 in
      let aWrite := item aValue 1 in
      let bRead := item bValue 0 in
      let bWrite := item bValue 1 in
      (* Smart sorting: analyze if this is a read-heavy or write-heavy
         comparison *)
      let totalReads := Double.add aRead bRead in
      let totalWrites := Double.add aWrite bWrite in
      if Qlt_bool (Double.mul totalReads (3 # 2)) totalWrites then
        (* Write-heavy scenario: prioritize writes, use reads as
           tiebreaker *)
        if negb (Qeq_bool aWrite bWrite)
        then ret (Double.mul direction (Double.sub aWrite bWrite))
        else ret (Double.mul direction (Double.sub aRead bRead))
      else if Qlt_bool (Double.mul totalWrites (3 # 2)) totalReads then
        (* Read-heavy scenario: prioritize reads, use writes as
           tiebreaker *)
        if negb (Qeq_bool aRead bRead)
        then ret (Double.mul direction (Double.sub aRead bRead))
        else ret (Double.mul direction (Double.sub aWrite bWrite))
      else
        (* Balanced I/O: sort by total, use max as tiebreaker *)
        let aTotalDisk := Double.add aRead aWrite in
        let bTotalDisk := Double.add bRead bWrite in
        if negb (Qeq_bool aTotalDisk bTotalDisk)
        then ret (Double.mul direction (Double.sub aTotalDisk bTotalDisk))
        else
          (* Tiebreaker: use the dominant operation *)
          let aMaxDisk := Math_max aRead aWrite in
          let bMaxDisk := Math_max bRead bWrite in
          ret (Double.mul direction (Double.sub aMaxDisk bMaxDisk))
    else
      (* Type-specific comparisons *)
      match aValue with
      | VString aStr =>
          ret (Double.mul direction
                 (inject_Z (localeCompare aStr (as_string bValue))))
      | _ => ret (Double.mul direction
                    (Double.sub (Number aValue) (Number bValue)))
      end.

Definition sortProcesses (processes : loc) (sortConfig : SortConfig)
    (pinnedProcesses : gset string) : M loc :=
  (* Clear the cache before sorting *)
  let* _ := isPinned_clear in
  (* [...processes] *)
  let* elems := array_read processes in
  let* copy := array_alloc elems in
  array_sort copy (compareFn sortConfig pinnedProcesses).

End SortProcesses.

(** ** Vocabulary of the design document *)

Section Vocabulary.
Context {rt : Runtime}.

(** The term, compiled as a case-insensitive regular expression, matches
    [s]; a term that does not compile matches nothing. *)
Definition regex_matches (term s : string) : bool :=
  regexp_syntax_ok term && regexp_test_i term s.

(** The four ways in which a search term matches a record. *)
Definition term_matches (process : Process) (term : string) : bool :=
  Js.includes (toLowerCase (name process)) (toLowerCase term)
  || Js.includes (toLowerCase (command process)) (toLowerCase term)
  || Js.includes (Js.toString (pid process)) term
  || regex_matches term (name process).

(** Derived values of the numeric clauses. *)
Definition ram_value (process : Process) : Q :=
  Double.div (inject_Z (memory_usage process)) (Double.mul 1024 1024).

Definition runtime_value (process : Process) : Q :=
  Double.div (inject_Z (run_time process)) 60.

(** A numeric clause lets a derived value through. *)
Definition clause_passes (c : NumericFilter) (derived : Q) : bool :=
  negb (enabled c) || compareValue derived (operator c) (value c).

(** The status clause lets a status through. *)
Definition status_passes (c : StatusFilter) (st : string) : bool :=
  negb (status_enabled c && (0 <? length (values c))%nat)
  || Js.array_includes (values c) st.

(** The record has passed the status and numeric clauses. *)
Definition passes_clauses (filters : Filters) (process : Process) : bool :=
  status_passes (status_filter filters) (status process)
  && clause_passes (cpu filters) (cpu_usage process)
  && clause_passes (ram filters) (ram_value process)
  && clause_passes (runtime filters) (runtime_value process).

(** The record is kept: it passes the clauses and, when there are search
    terms, one of them matches. *)
Definition kept (filters : Filters) (terms : list string)
    (process : Process) : bool :=
  passes_clauses filters process
  && ((length terms =? 0)%nat || existsb (term_matches process) terms).

(** Every cached pattern is the one compiled from its key. *)
Definition regexCache_coherent (cache : gmap string RegExp) : Prop :=
  forall term regex,
    cache !! term = Some regex ->
    regex = mkRegExp term /\ regexp_syntax_ok term = true.

End Vocabulary.

(** A computation that, from every store satisfying [I], completes normally
    with the value [v] and re-establishes [I]. *)
Definition returns {A} (I : State -> Prop) (m : M A) (v : A) : Prop :=
  forall s, I s -> exists s', m s = (Normal v, s') /\ I s'.

(** A computation that, from every store satisfying [I], completes normally
    with some value satisfying [post] and re-establishes [I]. *)
Definition completes {A} (I : State -> Prop) (m : M A) (post : A -> Prop)
  : Prop :=
  forall s, I s -> exists v s', m s = (Normal v, s') /\ I s' /\ post v.

(** The elements of the array that a run has returned. *)
Definition returned_elements (run : completion loc * State)
  : option (list Process) :=
  match run with
  | (Normal q, s') => arrays s' !! q
  | (Throw _, _) => None
  end.

(** The value a computation completes with from a given store. *)
Definition result_in {A} (s : State) (m : M A) : completion A := fst (m s).

(** Invariant of a call to [filterProcesses]: only the pattern cache moves,
    and it stays coherent. *)
Definition filter_inv {rt : Runtime} (h : gmap loc (list Process))
    (pins : gmap string bool) (s : State) : Prop :=
  arrays s = h /\ isPinned s = pins /\ regexCache_coherent (regexCache s).

(** What a call to [filterProcesses] leaves alone whatever the pattern cache
    holds: the arrays and [isPinned]. *)
Definition filter_frame (h : gmap loc (list Process))
    (pins : gmap string bool) (s : State) : Prop :=
  arrays s = h /\ isPinned s = pins.

(** Invariant of the comparator: only [isPinned] moves. *)
Definition sort_inv (h : gmap loc (list Process))
    (cache : gmap string RegExp) (s : State) : Prop :=
  arrays s = h /\ regexCache s = cache.

(** The store before the module has run: no arrays, both maps empty. *)
Definition initial_state : State :=
  {| arrays := ∅; regexCache := ∅; isPinned := ∅ |}.

(** The number the comparator answers with; it does not depend on the
    store (lemma [compareFn_returns]). *)
Definition comparator {rt : Runtime} (sortConfig : SortConfig)
    (pinnedProcesses : gset string) (a b : Process) : Q :=
  match result_in initial_state (compareFn sortConfig pinnedProcesses a b) with
  | Normal v => v
  | Throw _ => 0
  end.

(** The insertion sort of [array_sort] for a comparator without effects. *)
Fixpoint insert_by {A} (cmp : A -> A -> Q) (x : A) (sorted : list A) : list A :=
  match sorted with
  | [] => [x]
  | y :: rest =>
      if Qle_bool (cmp x y) 0 then x :: y :: rest
      else y :: insert_by cmp x rest
  end.

Fixpoint sorted_by {A} (cmp : A -> A -> Q) (arr : list A) : list A :=
  match arr with
  | [] => []
  | x :: rest => insert_by cmp x (sorted_by cmp rest)
  end.

Definition pinned (pinnedProcesses : gset string) (p : Process) : bool :=
  bool_decide (command p ∈ pinnedProcesses).

(** Pinned records come first: behind an unpinned record there are only
    unpinned records. *)
Fixpoint pins_first (pinnedProcesses : gset string) (l : list Process) : Prop :=
  match l with
  | [] => True
  | x :: rest =>
      (pinned pinnedProcesses x = false ->
       Forall (fun y => pinned pinnedProcesses y = false) rest)
      /\ pins_first pinnedProcesses rest
  end.

(** *** The dominant-operation heuristic, as the design document words it *)

Inductive Dominance := WriteDominant | ReadDominant | Balanced.

(** Classification of one comparison from the summed counters of its two
    records. *)
Definition classify (a b : Z * Z) : Dominance :=
  let totalReads := inject_Z (fst a + fst b) in
  let totalWrites := inject_Z (snd a + snd b) in
  if Qlt_bool (totalReads * (3 # 2)) totalWrites then WriteDominant
  else if Qlt_bool (totalWrites * (3 # 2)) totalReads then ReadDominant
  else Balanced.

(** Order by a primary key, with a second key to break ties. *)
Definition lexicographic (primary tiebreak : comparison) : comparison :=
  match primary with
  | Eq => tiebreak
  | c => c
  end.

(** Ascending keeps the natural order, descending inverts it. *)
Definition directed (d : Direction) (c : comparison) : comparison :=
  match d with
  | asc => c
  | desc => CompOpp c
  end.

(** The order of two [(read, write)] pairs: [Lt] when the first goes before
    the second. *)
Definition disk_order (d : Direction) (a b : Z * Z) : comparison :=
  let '(aRead, aWrite) := a in
  let '(bRead, bWrite) := b in
  directed d
    match classify a b with
    | WriteDominant => lexicographic (aWrite ?= bWrite) (aRead ?= bRead)
    | ReadDominant => lexicographic (aRead ?= bRead) (aWrite ?= bWrite)
    | Balanced =>
        lexicographic (aRead + aWrite ?= bRead + bWrite)
                      (Z.max aRead aWrite ?= Z.max bRead bWrite)
    end.

(** ** Sample data *)

Module Sample.

Definition is_upper (c : ascii) : bool :=
  let n := N_of_ascii c in (65 <=? n)%N && (n <=? 90)%N.

Definition lower_char (c : ascii) : ascii :=
  if is_upper c then ascii_of_N (N_of_ascii c + 32) else c.

(** Lowering of the letters A to Z. *)
Fixpoint ascii_toLowerCase (s : string) : string :=
  match s with
  | EmptyString => EmptyString
  | String c s' => String (lower_char c) (ascii_toLowerCase s')
  end.

(** The white space of ASCII: TAB, LF, VT, FF, CR, SPACE. *)
Definition is_space (c : ascii) : bool :=
  let n := N_of_ascii c in ((9 <=? n)%N && (n <=? 13)%N) || (n =? 32)%N.

Fixpoint trimStart (s : string) : string :=
  match s with
  | EmptyString => EmptyString
  | String c s' => if is_space c then trimStart s' else s
  end.

Fixpoint trimEnd (s : string) : string :=
  match s with
  | EmptyString => EmptyString
  | String c s' =>
      match trimEnd s' with
      | EmptyString => if is_space c then EmptyString else String c EmptyString
      | r => String c r
      end
  end.

(** Trimming of ASCII white space at both ends. *)
Definition ascii_trim (s : string) : string := trimEnd (trimStart s).

(** A small runtime for text in ASCII: case mapping and trimming are those
    of ASCII, a pattern is literal text matched without regard to case, a
    pattern with an opening parenthesis is malformed, and collation is the
    code-point order. *)
Definition engine : Runtime :=
  {| toLowerCase := ascii_toLowerCase;
     trim := ascii_trim;
     regexp_syntax_ok p := negb (Js.includes p "(");
     regexp_test_i p str :=
       Js.includes (ascii_toLowerCase str) (ascii_toLowerCase p);
     localeCompare str1 str2 :=
       match String.compare str1 str2 with
       | Lt => -1
       | Eq => 0
       | Gt => 1
       end |}.

Definition MiB : Z := 1024 * 1024.

(** The three-process snapshot of the end-to-end scenario. *)
Definition chrome : Process :=
  {| pid := 1; name := "chrome"; command := "/opt/chrome/chrome";
     status := "Running"; cpu_usage := 70; memory_usage := 200 * MiB;
     run_time := 120; disk_usage := (0, 0) |}.

Definition idle : Process :=
  {| pid := 2; name := "idle"; command := "idle";
     status := "Sleeping"; cpu_usage := 1; memory_usage := 10 * MiB;
     run_time := 5; disk_usage := (0, 0) |}.

Definition chromehelper : Process :=
  {| pid := 3; name := "chromehelper"; command := "/opt/chrome/helper";
     status := "Running"; cpu_usage := 40; memory_usage := 300 * MiB;
     run_time := 3600; disk_usage := (0, 0) |}.

Definition snapshot : list Process := [chrome; idle; chromehelper].

(** A store that holds the snapshot at location 1. *)
Definition store : State :=
  {| arrays := {[ 1%positive := snapshot ]};
     regexCache := ∅; isPinned := ∅ |}.

(** The default filters of the tool bar: nothing enabled. *)
Definition no_filters : Filters :=
  {| cpu := {| operator := ">"; value := 50; enabled := false |};
     ram := {| operator := ">"; value := 100; enabled := false |};
     runtime := {| operator := ">"; value := 60; enabled := false |};
     status_filter := {| values := []; status_enabled := false |} |}.

(** [cpu > 50] enabled. *)
Definition busy_filters : Filters :=
  {| cpu := {| operator := ">"; value := 50; enabled := true |};
     ram := {| operator := ">"; value := 100; enabled := false |};
     runtime := {| operator := ">"; value := 60; enabled := false |};
     status_filter := {| values := []; status_enabled := false |} |}.

(** The status clause enabled with nothing selected. *)
Definition empty_status_filters : Filters :=
  {| cpu := {| operator := ">"; value := 50; enabled := true |};
     ram := {| operator := ">"; value := 100; enabled := false |};
     runtime := {| operator := ">"; value := 60; enabled := false |};
     status_filter := {| values := []; status_enabled := true |} |}.

Definition by_disk_asc : SortConfig :=
  {| field := K_disk_usage; direction := asc |}.

Definition by_cpu_desc : SortConfig :=
  {| field := K_cpu_usage; direction := desc |}.

(** Three records whose disk counters the comparator orders in a cycle. *)
Definition disk_record (n : Z) (read written : Z) : Process :=
  {| pid := n; name := "io"; command := "io";
     status := "Running"; cpu_usage := 0; memory_usage := 0;
     run_time := 0; disk_usage := (read, written) |}.

Definition recA : Process := disk_record 1 0 3.
Definition recB : Process := disk_record 2 1 3.
Definition recC : Process := disk_record 3 3 2.

(** Two records with counters of some eight pebibytes: the sums of their
    counters are no longer exact in binary64. *)
Definition hugeA : Process := disk_record 1 (2 ^ 53 + 4) (2 ^ 53 - 4).
Definition hugeB : Process := disk_record 2 (2 ^ 53 - 1) (2 ^ 53 + 2).

End Sample.

(** Counters below 2^50 in magnitude: every sum, product by 1.5 and
    difference that the comparator forms from two such pairs is a double, so
    none of them is rounded. *)
Definition counters_exact (disk : Z * Z) : Prop :=
  Z.abs (fst disk) < 2 ^ 50 /\ Z.abs (snd disk) < 2 ^ 50.

(** The filters with the status clause switched off and all else as it
    was. *)
Definition disable_status (filters : Filters) : Filters :=
  {| cpu := cpu filters;
     ram := ram filters;
     runtime := runtime filters;
     status_filter :=
       {| values := values (status_filter filters);
          status_enabled := false |} |}.

(** The five operators that [compareValue] knows. *)
Definition known_operators : list string := [">"; "<"; "="; ">="; "<="].

(** ** Formatting helpers of [src/lib/utils/index.ts] *)

(** [UNITS] *)
Definition UNITS_byte : string := "B".
Definition UNITS_kilo : string := "KiB".
Definition UNITS_mega : string := "MiB".
Definition UNITS_giga : string := "GiB".
Definition UNITS_tera : string := "TiB".

(** [x.toFixed(1)] for a number below 10^21 in magnitude (beyond that
    JavaScript switches to exponent notation). The sign is split off first;
    the integer [n] of tenths nearest to the magnitude is taken, the larger
    one on a tie; [n] is printed with one digit behind the point. *)
Definition toFixed1 (x : Q) : string :=
  let negative := Qlt_bool x 0 in
  let magnitude := if negative then (- x)%Q else x in
  let n := Qfloor (magnitude * 10 + (1 # 2)) in
  ((if negative then "-" else "")
   ++ Js.toString (n / 10) ++ "." ++ Js.toString (n mod 10))%string.

Definition formatMemorySize (bytes : Z) : string :=
  let gb := (inject_Z bytes / (1024 * 1024 * 1024))%Q in
  (toFixed1 gb ++ " " ++ UNITS_giga)%string.

Definition formatPercentage (value : Q) : string :=
  (toFixed1 value ++ "%")%string.

(** The three numbers that [formatUptime] prints. [%] is the remainder of
    JavaScript, which takes the sign of the dividend ([Z.rem]); [Math.floor]
    of a quotient by a positive constant is [Z.div]. *)
Definition uptime_days (seconds : Z) : Z := seconds / 86400.
Definition uptime_hours (seconds : Z) : Z := Z.rem seconds 86400 / 3600.
Definition uptime_minutes (seconds : Z) : Z := Z.rem seconds 3600 / 60.

Definition formatUptime (seconds : Z) : string :=
  let days := uptime_days seconds in
  let hours := uptime_hours seconds in
  let minutes := uptime_minutes seconds in
  (Js.toString days ++ "d " ++ Js.toString hours ++ "h "
   ++ Js.toString minutes ++ "m")%string.

Definition getUsageClass (percentage : Q) : string :=
  if Qle_bool 90 percentage then "critical"
  else if Qle_bool 60 percentage then "high"
  else if Qle_bool 30 percentage then "medium"
  else "low".

(** The [units] array of [formatBytes]. *)
Definition units : list string :=
  [UNITS_byte; UNITS_kilo; UNITS_mega; UNITS_giga; UNITS_tera].

(** The [while] loop of [formatBytes]; [fuel] bounds the number of
    iterations; the length of [units] is enough for the loop to leave by
    its own test, as is proved below. *)
Fixpoint formatBytes_loop (fuel : nat) (value : Q) (unitIndex : nat)
  : Q * nat :=
  if Qle_bool 1024 value && (unitIndex <? length units - 1)%nat then
    match fuel with
    | O => (value, unitIndex)
    | S fuel' => formatBytes_loop fuel' (value / 1024)%Q (S unitIndex)
    end
  else (value, unitIndex).

(** The value and the unit index with which [formatBytes] leaves its loop. *)
Definition formatBytes_scaled (bytes : Z) : Q * nat :=
  formatBytes_loop (length units) (inject_Z bytes) 0.

Definition formatBytes (bytes : Z) : string :=
  let '(value, unitIndex) := formatBytes_scaled bytes in
  (toFixed1 value ++ " " ++ nth unitIndex units "undefined")%string.

(** How alarming a usage class is. *)
Definition usage_rank (class : string) : nat :=
  if String.eqb class "critical" then 3
  else if String.eqb class "high" then 2
  else if String.eqb class "medium" then 1
  else 0.

(** ** The filter tool bar ([src/unnamed/part_000]) *)

(** [keyof typeof filters] *)
Inductive FilterKey := F_cpu | F_ram | F_runtime | F_status.

#[global] Instance FilterKey_eq_dec : EqDecision FilterKey.
Proof. solve_decision. Defined.

(** A [string | number] argument. *)
Inductive Arg := ArgString (str : string) | ArgNumber (x : Q).

(** [value as string] and [value as number]; each is applied where the
    markup passes a value of that shape. *)
Definition arg_string (v : Arg) : string :=
  match v with ArgString str => str | ArgNumber _ => EmptyString end.

Definition arg_number (v : Arg) : Q :=
  match v with ArgNumber x => x | ArgString _ => 0 end.

(** The initial value of the [filters] property. *)
Definition default_filters : Filters :=
  {| cpu := {| operator := ">"; value := 50; enabled := false |};
     ram := {| operator := ">"; value := 100; enabled := false |};
     runtime := {| operator := ">"; value := 60; enabled := false |};
     status_filter := {| values := []; status_enabled := false |} |}.

(** The options of the operator [select]. *)
Definition operators : list string := [">"; "<"].

(** The [value]s of [statusOptions]. *)
Definition statusOptions : list string :=
  ["Running"; "Sleeping"; "Stopped"; "Zombie"].

(** [$: hasActiveFilters = Object.values(filters).some((f) => f.enabled)] *)
Definition hasActiveFilters (filters : Filters) : bool :=
  existsb id
    [ enabled (cpu filters); enabled (ram filters);
      enabled (runtime filters); status_enabled (status_filter filters) ].

(** [$: activeFilterCount =
       Object.values(filters).filter((f) => f.enabled).length] *)
Definition activeFilterCount (filters : Filters) : nat :=
  length
    (List.filter id
       [ enabled (cpu filters); enabled (ram filters);
         enabled (runtime filters); status_enabled (status_filter filters) ]).

Definition toggle_enabled (c : NumericFilter) : NumericFilter :=
  {| operator := operator c; value := value c; enabled := negb (enabled c) |}.

Definition set_operator (c : NumericFilter) (op : string) : NumericFilter :=
  {| operator := op; value := value c; enabled := enabled c |}.

Definition set_value (c : NumericFilter) (v : Q) : NumericFilter :=
  {| operator := operator c; value := v; enabled := enabled c |}.

(** [filters[type].enabled = !filters[type].enabled] *)
Definition toggleFilter (type : FilterKey) (filters : Filters) : Filters :=
  match type with
  | F_cpu =>
      {| cpu := toggle_enabled (cpu filters); ram := ram filters;
         runtime := runtime filters; status_filter := status_filter filters |}
  | F_ram =>
      {| cpu := cpu filters; ram := toggle_enabled (ram filters);
         runtime := runtime filters; status_filter := status_filter filters |}
  | F_runtime =>
      {| cpu := cpu filters; ram := ram filters;
         runtime := toggle_enabled (runtime filters);
         status_filter := status_filter filters |}
  | F_status =>
      {| cpu := cpu filters; ram := ram filters; runtime := runtime filters;
         status_filter :=
           {| values := values (status_filter filters);
              status_enabled := negb (status_enabled (status_filter filters))
           |} |}
  end.

(** The status branch of [updateFilter]: the value leaves the selection when
    it is in it and is appended when it is not; [enabled] follows. *)
Definition toggle_status (statusValue : string) (c : StatusFilter)
  : StatusFilter :=
  let currentValues := values c in
  let newValues :=
    if Js.array_includes currentValues statusValue
    then List.filter (fun v => negb (String.eqb v statusValue)) currentValues
    else currentValues ++ [statusValue] in
  {| values := newValues; status_enabled := (0 <? length newValues)%nat |}.

(** Assignment to [filters[type][field]] for a numeric clause; on the
    status clause the assignment adds a property that nothing reads. *)
Definition update_numeric (type : FilterKey)
    (f : NumericFilter -> NumericFilter) (filters : Filters) : Filters :=
  match type with
  | F_cpu =>
      {| cpu := f (cpu filters); ram := ram filters;
         runtime := runtime filters; status_filter := status_filter filters |}
  | F_ram =>
      {| cpu := cpu filters; ram := f (ram filters);
         runtime := runtime filters; status_filter := status_filter filters |}
  | F_runtime =>
      {| cpu := cpu filters; ram := ram filters;
         runtime := f (runtime filters);
         status_filter := status_filter filters |}
  | F_status => filters
  end.

Definition updateFilter (type : FilterKey) (field : string) (value : Arg)
    (filters : Filters) : Filters :=
  if bool_decide (type = F_status) && String.eqb field "values" then
    (* Handle status array toggle *)
    {| cpu := cpu filters; ram := ram filters; runtime := runtime filters;
       status_filter :=
         toggle_status (arg_string value) (status_filter filters) |}
  else if String.eqb field "operator" then
    update_numeric type (fun c => set_operator c (arg_string value)) filters
  else if String.eqb field "value" then
    update_numeric type (fun c => set_value c (arg_number value)) filters
  else filters.

Definition clear_enabled (c : NumericFilter) : NumericFilter :=
  {| operator := operator c; value := value c; enabled := false |}.

Definition clearAllFilters (filters : Filters) : Filters :=
  {| cpu := clear_enabled (cpu filters);
     ram := clear_enabled (ram filters);
     runtime := clear_enabled (runtime filters);
     status_filter := {| values := []; status_enabled := false |} |}.

(** The three keys over which the markup iterates for the numeric
    controls. *)
Inductive NumericKey := N_cpu | N_ram | N_runtime.

Definition filterKey (k : NumericKey) : FilterKey :=
  match k with N_cpu => F_cpu | N_ram => F_ram | N_runtime => F_runtime end.

(** The events that the markup wires to the functions above. *)
Inductive Event :=
| ClickToggle (k : NumericKey)              (* [toggleFilter(filterKey)] *)
| ChangeOperator (k : NumericKey) (op : string)
                          (* [updateFilter(filterKey, "operator", value)] *)
| InputValue (k : NumericKey) (v : Q)
                          (* [updateFilter(filterKey, "value", parseInt(...))] *)
| ClickStatus (st : string)
                          (* [updateFilter("status", "values", status.value)] *)
| ClickClearAll.                            (* [clearAllFilters] *)

(** The operator comes from the [select], the status from a status
    button. *)
Definition event_from_markup (e : Event) : Prop :=
  match e with
  | ChangeOperator _ op => In op operators
  | ClickStatus st => In st statusOptions
  | _ => True
  end.

Definition handle (filters : Filters) (e : Event) : Filters :=
  match e with
  | ClickToggle k => toggleFilter (filterKey k) filters
  | ChangeOperator k op =>
      updateFilter (filterKey k) "operator" (ArgString op) filters
  | InputValue k v => updateFilter (filterKey k) "value" (ArgNumber v) filters
  | ClickStatus st => updateFilter F_status "values" (ArgString st) filters
  | ClickClearAll => clearAllFilters filters
  end.

(** The filters after a sequence of events, starting from the default. *)
Definition filters_after (events : list Event) : Filters :=
  fold_left handle events default_filters.

(** What holds of the filters whatever the user has clicked. *)
Definition filters_well_formed (filters : Filters) : Prop :=
  status_enabled (status_filter filters)
  = (0 <? length (values (status_filter filters)))%nat
  /\ NoDup (values (status_filter filters))
  /\ (forall st, In st (values (status_filter filters)) -> In st statusOptions)
  /\ In (operator (cpu filters)) operators
  /\ In (operator (ram filters)) operators
  /\ In (operator (runtime filters)) operators.

(** ** Vocabulary for the ranking engine *)

(** The number by which a numeric field orders a record. *)
Definition sort_key (k : ProcessKey) (p : Process) : Q := Number (get p k).

(** The fields whose values are plain numbers. *)
Definition numeric_field (k : ProcessKey) : bool :=
  match k with
  | K_pid | K_cpu_usage | K_memory_usage | K_run_time => true
  | _ => false
  end.

(** Every entry of [isPinned] tells the truth about the pin set. *)
Definition isPinned_consistent (pinnedProcesses : gset string)
    (cache : gmap string bool) : Prop :=
  forall k v, cache !! k = Some v -> v = bool_decide (k ∈ pinnedProcesses).

(** Case analysis on every conditional of the goal. *)
Ltac split_ifs :=
  repeat match goal with
         | |- context [if ?c then _ else _] => destruct c eqn:?; simpl
         | |- context [match ?v with VNumber _ => _ | _ => _ end] =>
             destruct v eqn:?; simpl
         end.

(** ** Binary64 rounding *)

Section DoubleFacts.
Local Open Scope Q_scope.

Local Abbreviation pow2 := Double.pow2.
Local Abbreviation log2_floor := Double.log2_floor.
Local Abbreviation nearest_even := Double.nearest_even.
Local Abbreviation round_positive := Double.round_positive.
Local Abbreviation round := Double.round.

Lemma pow2_pos z : 0 < pow2 z.
Proof. apply Qpower_0_lt. reflexivity. Qed.

Lemma pow2_add a b : pow2 (a + b) == pow2 a * pow2 b.
Proof. apply Qpower_plus. discriminate. Qed.

Lemma pow2_Z z : (0 <= z)%Z -> pow2 z == inject_Z (2 ^ z).
Proof.
  intros Hz. unfold Double.pow2. rewrite Zpower_Qpower by exact Hz.
  reflexivity.
Qed.

Lemma pow2_le a b : (a <= b)%Z -> pow2 a <= pow2 b.
Proof. intros H. apply Qpower_le_compat_l; [exact H | discriminate]. Qed.

Lemma pow2_lt_inv a b : pow2 a < pow2 b -> (a < b)%Z.
Proof. intros H. eapply Qpower_lt_compat_l_inv; [exact H | reflexivity]. Qed.

Lemma pow2_opp a : pow2 (- a) == / pow2 a.
Proof. apply Qpower_opp. Qed.

(** [log2_floor] brackets a positive rational between two powers of two. *)
Lemma log2_floor_spec (a : Q) :
  0 < a -> pow2 (log2_floor a) <= a /\ a < pow2 (log2_floor a + 1).
Proof.
  intros Ha. destruct a as [n d]. unfold Double.log2_floor.
  simpl Qnum. simpl Qden.
  assert (0 < n)%Z as Hn.
  { unfold Qlt in Ha. simpl in Ha. lia. }
  pose proof (Z.log2_spec n Hn) as [Hn1 Hn2].
  pose proof (Z.log2_spec (Z.pos d) (Pos2Z.is_pos d)) as [Hd1 Hd2].
  pose proof (Z.log2_nonneg n) as Hln.
  pose proof (Z.log2_nonneg (Z.pos d)) as Hld.
  set (ln := Z.log2 n) in *. set (ld := Z.log2 (Z.pos d)) in *.
  assert (n # d == inject_Z n / inject_Z (Z.pos d)) as Hnd
    by (rewrite <- Qmake_Qdiv; reflexivity).
  assert (0 < inject_Z (Z.pos d)) as Hdpos by (unfold Qlt; simpl; lia).
  (* the estimate is off by less than one *)
  assert (pow2 (ln - ld - 1) < n # d) as Hlow.
  { rewrite Hnd. apply Qlt_shift_div_l; [exact Hdpos|].
    apply Qlt_le_trans with (pow2 (ln - ld - 1) * pow2 (ld + 1)).
    - apply Qmult_lt_l; [apply pow2_pos|].
      rewrite pow2_Z by lia. rewrite <- Zlt_Qlt.
      replace (ld + 1)%Z with (Z.succ ld) by lia. exact Hd2.
    - rewrite <- pow2_add. replace (ln - ld - 1 + (ld + 1))%Z with ln by lia.
      rewrite pow2_Z by lia. rewrite <- Zle_Qle. exact Hn1. }
  assert (n # d < pow2 (ln - ld + 1)) as Hhigh.
  { rewrite Hnd. apply Qlt_shift_div_r; [exact Hdpos|].
    apply Qlt_le_trans with (pow2 (ln - ld + 1) * pow2 ld).
    - rewrite <- pow2_add. replace (ln - ld + 1 + ld)%Z with (Z.succ ln) by lia.
      rewrite pow2_Z by lia. rewrite <- Zlt_Qlt. exact Hn2.
    - apply Qmult_le_l; [apply pow2_pos|].
      rewrite pow2_Z by lia. rewrite <- Zle_Qle. exact Hd1. }
  destruct (Qle_bool (pow2 (ln - ld)) (n # d)) eqn:E.
  - apply Qle_bool_iff in E. split; assumption.
  - replace (ln - ld - 1 + 1)%Z with (ln - ld)%Z by lia.
    split; [apply Qlt_le_weak, Hlow|].
    apply Qnot_le_lt. intros Hle. apply Qle_bool_iff in Hle. congruence.
Qed.

Lemma nearest_even_Z (q : Q) (z : Z) : q == inject_Z z -> nearest_even q = z.
Proof.
  intros Hq. unfold Double.nearest_even.
  rewrite (Qfloor_comp q (inject_Z z) Hq), Qfloor_Z.
  assert (q - inject_Z z < 1 # 2) as Hlt by (rewrite Hq; lra).
  apply (proj1 (Qlt_alt _ _)) in Hlt. rewrite Hlt. reflexivity.
Qed.

Lemma nearest_even_floor (q : Q) : (Qfloor q <= nearest_even q)%Z.
Proof.
  unfold Double.nearest_even.
  destruct (q - inject_Z (Qfloor q) ?= 1 # 2); [|lia|lia].
  destruct (Z.even (Qfloor q)); lia.
Qed.

Lemma round_positive_pos (a : Q) : 0 < a -> 0 < round_positive a.
Proof.
  intros Ha. unfold Double.round_positive.
  destruct (log2_floor_spec a Ha) as [Hlow _].
  set (e := (log2_floor a - 52)%Z).
  assert (pow2 e <= a) as He.
  { eapply Qle_trans; [|exact Hlow]. apply pow2_le. unfold e. lia. }
  assert (1 <= a / pow2 e) as Hq.
  { apply Qle_shift_div_l; [apply pow2_pos|]. lra. }
  assert (1 <= nearest_even (a / pow2 e))%Z as Hm.
  { pose proof (nearest_even_floor (a / pow2 e)).
    pose proof (Qfloor_resp_le _ _ Hq) as Hf.
    change (Qfloor 1) with 1%Z in Hf. lia. }
  apply Qmult_lt_0_compat; [|apply pow2_pos].
  change 0 with (inject_Z 0). rewrite <- Zlt_Qlt. lia.
Qed.

(** Rounding depends on the number, not on the fraction that denotes it. *)
Lemma round_comp (x y : Q) : x == y -> round x = round y.
Proof.
  intros Hxy. unfold Double.round. rewrite (Qred_complete x y Hxy).
  reflexivity.
Qed.

Lemma Qnum_sign (x : Q) : (Qnum x ?= 0)%Z = (x ?= 0).
Proof. unfold Qcompare. simpl. rewrite Z.mul_1_r. reflexivity. Qed.

(** Rounding keeps the sign: zero stays zero, and nothing else becomes
    zero. *)
Lemma round_sign (x : Q) : (round x ?= 0) = (x ?= 0).
Proof.
  unfold Double.round.
  rewrite (Qcompare_comp _ _ (Qred_correct _) 0 0 (Qeq_refl 0)).
  rewrite <- (Qcompare_comp _ _ (Qred_correct x) 0 0 (Qeq_refl 0)).
  rewrite <- (Qnum_sign (Qred x)).
  destruct (Qnum (Qred x)) eqn:En.
  - reflexivity.
  - simpl. apply (proj1 (Qgt_alt _ _)). apply round_positive_pos.
    apply (proj2 (Qgt_alt _ _)). rewrite <- Qnum_sign, En. reflexivity.
  - simpl. apply (proj1 (Qlt_alt _ _)).
    assert (0 < round_positive (- Qred x)) as Hp.
    { apply round_positive_pos.
      assert (Qred x < 0) as Hneg
        by (apply (proj2 (Qlt_alt _ _)); rewrite <- Qnum_sign, En; reflexivity).
      lra. }
    lra.
Qed.

Lemma round_opp (x : Q) : round (- x) = - round x.
Proof.
  unfold Double.round. rewrite Qred_opp.
  destruct (Qred x) as [n d] eqn:Ex.
  destruct n as [|p|p].
  - reflexivity.
  - change (Qred (- round_positive (- - (Z.pos p # d)))
            = - Qred (round_positive (Z.pos p # d))).
    change (- - (Z.pos p # d)) with (Z.pos p # d).
    apply Qred_opp.
  - change (Qred (round_positive (- (Z.neg p # d)))
            = - Qred (- round_positive (- (Z.neg p # d)))).
    rewrite Qred_opp.
    destruct (Qred (round_positive (- (Z.neg p # d)))) as [n' d'].
    destruct n'; reflexivity.
Qed.

Lemma round_positive_exact (a : Q) (m : Z) :
  a / pow2 (log2_floor a - 52) == inject_Z m -> round_positive a == a.
Proof.
  intros Hm. unfold Double.round_positive.
  rewrite (nearest_even_Z _ _ Hm), <- Hm.
  field. pose proof (pow2_pos (log2_floor a - 52)). lra.
Qed.

Lemma round_positive_half (a : Q) (n : Z) :
  a == n # 2 -> (0 < n < 2 ^ 53)%Z -> round_positive a == a.
Proof.
  intros Ha [Hn0 Hn].
  assert (0 < a) as Hpos.
  { rewrite Ha. unfold Qlt. simpl. lia. }
  destruct (log2_floor_spec a Hpos) as [Hlow _].
  assert (a < pow2 52) as Hhigh.
  { rewrite Ha, pow2_Z by lia. unfold Qlt. simpl. lia. }
  assert (log2_floor a < 52)%Z as Hfl.
  { apply pow2_lt_inv. eapply Qle_lt_trans; eassumption. }
  set (e := (log2_floor a - 52)%Z) in *.
  apply round_positive_exact with (m := (n * 2 ^ (- e - 1))%Z). fold e.
  assert (pow2 (- e) == 2 * inject_Z (2 ^ (- e - 1))) as Hp.
  { replace (- e)%Z with (1 + (- e - 1))%Z at 1 by lia.
    rewrite pow2_add, (pow2_Z (- e - 1)) by lia. reflexivity. }
  unfold Qdiv. rewrite <- pow2_opp, Hp, Ha, inject_Z_mult.
  rewrite (Qmake_Qdiv n 2). field.
Qed.

(** A half-integer whose numerator fits the significand is not rounded. *)
Lemma round_half (x : Q) (n : Z) :
  x == n # 2 -> (Z.abs n < 2 ^ 53)%Z -> round x == x.
Proof.
  intros Hx Hn. unfold Double.round. rewrite Qred_correct.
  assert (Qred x == n # 2) as Hr by (rewrite Qred_correct; exact Hx).
  pose proof (Qnum_sign (Qred x)) as Hs.
  destruct (Qnum (Qred x)) eqn:En; simpl in Hs.
  - symmetry in Hs. apply (proj2 (Qeq_alt _ _)) in Hs.
    rewrite <- (Qred_correct x), Hs. reflexivity.
  - symmetry in Hs. apply (proj2 (Qgt_alt _ _)) in Hs.
    rewrite (round_positive_half (Qred x) n Hr).
    + apply Qred_correct.
    + split; [|lia]. rewrite Hr in Hs. unfold Qlt in Hs. simpl in Hs. lia.
  - symmetry in Hs. apply (proj2 (Qlt_alt _ _)) in Hs.
    rewrite (round_positive_half (- Qred x) (- n)).
    + rewrite Qopp_involutive. apply Qred_correct.
    + rewrite Hr. reflexivity.
    + split; [|lia]. rewrite Hr in Hs. unfold Qlt in Hs. simpl in Hs. lia.
Qed.

Lemma Qred_inject_Z (z : Z) : Qred (inject_Z z) = inject_Z z.
Proof.
  unfold Qred, inject_Z.
  pose proof (Z.ggcd_gcd z 1) as Hg.
  pose proof (Z.ggcd_correct_divisors z 1) as Hd.
  destruct (Z.ggcd z 1) as [g [aa bb]]. simpl in *.
  rewrite Z.gcd_1_r in Hg. subst g. destruct Hd as [Ha Hb].
  assert (aa = z) as -> by lia. assert (bb = 1%Z) as -> by lia.
  reflexivity.
Qed.

(** An integer below 2^52 in magnitude is a double, and rounding returns it
    as it is. *)
Lemma round_Z (z : Z) : (Z.abs z < 2 ^ 52)%Z -> round (inject_Z z) = inject_Z z.
Proof.
  intros Hz.
  assert (round (inject_Z z) == inject_Z z) as Heq.
  { apply (round_half _ (2 * z)); [|lia].
    unfold Qeq, inject_Z. cbn [Qnum Qden]. lia. }
  assert (round (inject_Z z) = Qred (round (inject_Z z))) as Hred.
  { unfold Double.round. symmetry. apply Qred_complete, Qred_correct. }
  rewrite Hred, (Qred_complete _ _ Heq).
  apply Qred_inject_Z.
Qed.

End DoubleFacts.

(** ** The monad *)

Lemma returns_ret {A} (I : State -> Prop) (v : A) : returns I (ret v) v.
Proof. intros s Hs. exists s. split; [reflexivity | exact Hs]. Qed.

Lemma returns_bind {A B} (I : State -> Prop) (m : M A) (k : A -> M B) v w :
  returns I m v -> returns I (k v) w -> returns I (bind m k) w.
Proof.
  intros Hm Hk s Hs.
  destruct (Hm s Hs) as (s1 & E1 & Hs1).
  destruct (Hk s1 Hs1) as (s2 & E2 & Hs2).
  exists s2. unfold bind. rewrite E1. split; assumption.
Qed.

Lemma returns_eq {A} (I : State -> Prop) (m : M A) v w :
  v = w -> returns I m v -> returns I m w.
Proof. intros ->. exact id. Qed.

Lemma array_some_returns {A} (I : State -> Prop) (f : A -> M bool)
    (g : A -> bool) (arr : list A) :
  (forall x, returns I (f x) (g x)) ->
  returns I (array_some f arr) (existsb g arr).
Proof.
  intros Hf. induction arr as [|x rest IH]; simpl.
  - apply returns_ret.
  - apply returns_bind with (v := g x); [apply Hf|].
    destruct (g x); simpl; [apply returns_ret | exact IH].
Qed.

Lemma array_filter_returns {A} (I : State -> Prop) (f : A -> M bool)
    (g : A -> bool) (arr : list A) :
  (forall x, returns I (f x) (g x)) ->
  returns I (array_filter f arr) (List.filter g arr).
Proof.
  intros Hf. induction arr as [|x rest IH]; simpl.
  - apply returns_ret.
  - apply returns_bind with (v := g x); [apply Hf|].
    apply returns_bind with (v := List.filter g rest); [exact IH|].
    apply returns_ret.
Qed.

Lemma completes_ret {A} (I : State -> Prop) (v : A) (post : A -> Prop) :
  post v -> completes I (ret v) post.
Proof. intros Hv s Hs. exists v, s. auto. Qed.

Lemma completes_bind {A B} (I : State -> Prop) (m : M A) (k : A -> M B)
    (mid : A -> Prop) (post : B -> Prop) :
  completes I m mid ->
  (forall v, mid v -> completes I (k v) post) ->
  completes I (bind m k) post.
Proof.
  intros Hm Hk s Hs.
  destruct (Hm s Hs) as (v & s1 & E1 & Hs1 & Hv).
  destruct (Hk v Hv s1 Hs1) as (w & s2 & E2 & Hs2 & Hw).
  exists w, s2. unfold bind. rewrite E1. auto.
Qed.

Lemma completes_weaken {A} (I : State -> Prop) (m : M A)
    (post post' : A -> Prop) :
  completes I m post -> (forall v, post v -> post' v) -> completes I m post'.
Proof.
  intros Hm Himp s Hs. destruct (Hm s Hs) as (v & s' & E & Hs' & Hv).
  exists v, s'. auto.
Qed.

Lemma array_some_completes {A} (I : State -> Prop) (f : A -> M bool)
    (arr : list A) :
  (forall x, completes I (f x) (fun _ => True)) ->
  completes I (array_some f arr) (fun _ => True).
Proof.
  intros Hf. induction arr as [|x rest IH]; simpl.
  - apply completes_ret. exact Logic.I.
  - eapply completes_bind; [apply Hf|].
    intros [|] _; [apply completes_ret; exact Logic.I | exact IH].
Qed.

Lemma array_filter_completes {A} (I : State -> Prop) (f : A -> M bool)
    (R : A -> Prop) (arr : list A) :
  (forall x, completes I (f x) (fun b => b = true -> R x)) ->
  completes I (array_filter f arr)
    (fun out => out `sublist_of` arr /\ Forall R out).
Proof.
  intros Hf. induction arr as [|x rest IH]; simpl.
  - apply completes_ret. split; constructor.
  - eapply completes_bind; [apply Hf|]. intros b Hb. simpl in Hb.
    eapply completes_bind; [exact IH|]. intros out [Hsub Hall].
    apply completes_ret. destruct b.
    + split; [constructor; exact Hsub | constructor; auto].
    + split; [constructor; exact Hsub | exact Hall].
Qed.

Lemma array_filter_ext {A} (f g : A -> M bool) (arr : list A) :
  (forall x, f x = g x) -> array_filter f arr = array_filter g arr.
Proof.
  intros Hfg. induction arr as [|x rest IH]; simpl; [reflexivity|].
  rewrite Hfg, IH. reflexivity.
Qed.

Lemma array_filter_ret_true {A} (arr : list A) (s : State) :
  array_filter (fun _ => ret true) arr s = (Normal arr, s).
Proof.
  induction arr as [|x rest IH]; simpl; [reflexivity|].
  unfold bind, ret in *. rewrite IH. reflexivity.
Qed.

(** ** The filter callbacks compute [kept] *)

(** The callback tests the clauses first and searches only then. *)
Lemma filter_callback_clauses {rt : Runtime} filters terms process :
  filter_callback filters terms process
  = if passes_clauses filters process
    then if (length terms =? 0)%nat then ret true
         else array_some
                (term_callback process
                   (toLowerCase (name process))
                   (toLowerCase (command process))
                   (Js.toString (pid process)))
                terms
    else ret false.
Proof.
  unfold filter_callback, passes_clauses, status_passes, clause_passes.
  fold (ram_value process). fold (runtime_value process).
  destruct (status_enabled (status_filter filters)); simpl;
    [destruct (0 <? length (values (status_filter filters)))%nat; simpl;
     [destruct (Js.array_includes _ _); simpl; [|reflexivity]|]|];
    (destruct (enabled (cpu filters)); simpl;
     [destruct (compareValue (cpu_usage process) _ _); simpl; [|reflexivity]|]);
    (destruct (enabled (ram filters)); simpl;
     [destruct (compareValue (ram_value process) _ _);
      simpl; [|reflexivity]|]);
    (destruct (enabled (runtime filters)); simpl;
     [destruct (compareValue (runtime_value process) _ _);
      simpl; [|reflexivity]|]);
    reflexivity.
Qed.


Section FilterCallbacks.
Context {rt : Runtime}.
Variable h : gmap loc (list Process).
Variable pins : gmap string bool.

Lemma term_callback_returns process term :
  returns (filter_inv h pins)
    (term_callback process
       (toLowerCase (name process)) (toLowerCase (command process))
       (Js.toString (pid process)) term)
    (term_matches process term).
Proof.
  intros s (Hh & Hp & Hc). unfold term_callback, term_matches.
  destruct (Js.includes _ _ || Js.includes _ _ || Js.includes _ _) eqn:E.
  { exists s. split; [reflexivity | unfold filter_inv; auto]. }
  simpl. unfold try_catch, bind, regexCache_get, regex_matches.
  destruct (regexCache s !! term) as [regex|] eqn:Hget.
  - destruct (Hc term regex Hget) as [-> Hok].
    exists s. unfold ret, RegExp_test. simpl. rewrite Hok. simpl.
    split; [reflexivity | unfold filter_inv; auto].
  - unfold new_RegExp. destruct (regexp_syntax_ok term) eqn:Hok; simpl.
    + eexists. split; [reflexivity|].
      split; [exact Hh | split; [exact Hp|]]. simpl.
      intros t r. rewrite lookup_insert. case_decide as Ht.
      * intros [= <-]. subst t. split; [reflexivity | exact Hok].
      * apply Hc.
    + exists s. split; [reflexivity | unfold filter_inv; auto].
Qed.

Lemma filter_callback_returns filters terms process :
  returns (filter_inv h pins)
    (filter_callback filters terms process) (kept filters terms process).
Proof.
  rewrite filter_callback_clauses. unfold kept.
  destruct (passes_clauses filters process); simpl; [|apply returns_ret].
  destruct (length terms =? 0)%nat; simpl; [apply returns_ret|].
  apply array_some_returns, term_callback_returns.
Qed.

(** Whatever the pattern cache holds, the callbacks complete normally and
    change neither the arrays nor [isPinned]. *)
Lemma term_callback_completes process nameLower commandLower pidString term :
  completes (filter_frame h pins)
    (term_callback process nameLower commandLower pidString term)
    (fun _ => True).
Proof.
  intros s (Hh & Hp). unfold term_callback.
  destruct (Js.includes _ _ || Js.includes _ _ || Js.includes _ _).
  { exists true, s. unfold filter_frame. auto. }
  unfold try_catch, bind, regexCache_get.
  destruct (regexCache s !! term) as [regex|].
  - eexists _, s. unfold filter_frame. split; [reflexivity | auto].
  - unfold new_RegExp. destruct (regexp_syntax_ok term); simpl.
    + eexists _, _. split; [reflexivity|]. unfold filter_frame. auto.
    + eexists _, s. split; [reflexivity|]. unfold filter_frame. auto.
Qed.

Lemma filter_callback_completes filters terms process :
  completes (filter_frame h pins)
    (filter_callback filters terms process)
    (fun b => b = true -> passes_clauses filters process = true).
Proof.
  rewrite filter_callback_clauses.
  destruct (passes_clauses filters process);
    [|apply completes_ret; intros; discriminate].
  destruct (length terms =? 0)%nat; [apply completes_ret; reflexivity|].
  eapply completes_weaken.
  - apply array_some_completes. intros term. apply term_callback_completes.
  - reflexivity.
Qed.

End FilterCallbacks.

(** ** The list that [filterProcesses] returns *)

Lemma split_not_nil sep s : Js.split sep s <> [].
Proof.
  destruct s as [|c s']; simpl; [discriminate|].
  destruct (Ascii.eqb c sep); [discriminate|].
  destruct (Js.split sep s'); discriminate.
Qed.

Lemma search_terms_not_nil {rt : Runtime} searchTerm :
  searchTerm <> EmptyString -> search_terms searchTerm <> [].
Proof.
  intros Hne. unfold search_terms.
  destruct searchTerm as [|c rest]; [congruence|]. simpl String.length.
  change (0 <? S (String.length rest))%nat with true. cbv iota.
  intros Hmap. apply map_eq_nil in Hmap. exact (split_not_nil _ _ Hmap).
Qed.

Lemma length_zero_empty (s : string) :
  (String.length s =? 0)%nat = true -> s = EmptyString.
Proof. destruct s; [reflexivity | discriminate]. Qed.

Lemma passes_clauses_none_enabled filters process :
  some_enabled filters = false -> passes_clauses filters process = true.
Proof.
  unfold some_enabled, passes_clauses, clause_passes, status_passes. simpl.
  destruct (enabled (cpu filters)), (enabled (ram filters)),
    (enabled (runtime filters)), (status_enabled (status_filter filters));
    simpl; intros; try discriminate; reflexivity.
Qed.

Lemma filter_all {A} (g : A -> bool) (l : list A) :
  (forall x, g x = true) -> List.filter g l = l.
Proof.
  intros Hg. induction l as [|x l IH]; simpl; [reflexivity|].
  rewrite Hg, IH. reflexivity.
Qed.

(** The run of [filterProcesses] from a store with a coherent pattern cache:
    it completes normally, the array it returns holds the kept records, and
    apart from a newly allocated result array only the pattern cache has
    moved. *)
Lemma filterProcesses_run {rt : Runtime} processes searchTerm filters s P :
  regexCache_coherent (regexCache s) ->
  arrays s !! processes = Some P ->
  exists q s',
    filterProcesses processes searchTerm filters s = (Normal q, s')
    /\ arrays s' !! q
       = Some (List.filter (kept filters (search_terms searchTerm)) P)
    /\ regexCache_coherent (regexCache s')
    /\ isPinned s' = isPinned s
    /\ (forall l, l <> q -> arrays s' !! l = arrays s !! l).
Proof.
  intros Hc HP. unfold filterProcesses.
  destruct ((String.length searchTerm =? 0)%nat && negb (some_enabled filters))
    eqn:Efast.
  - apply andb_true_iff in Efast as [Hlen Hen].
    apply length_zero_empty in Hlen. subst searchTerm.
    apply negb_true_iff in Hen.
    exists processes, s. split; [reflexivity|].
    rewrite filter_all; [auto|].
    intros x. unfold kept. rewrite passes_clauses_none_enabled by exact Hen.
    reflexivity.
  - destruct (array_filter_returns (filter_inv (arrays s) (isPinned s))
                (filter_callback filters (search_terms searchTerm))
                (kept filters (search_terms searchTerm)) P
                (filter_callback_returns _ _ filters _) s)
      as (s1 & E1 & Hh & Hp & Hc1).
    { unfold filter_inv; auto. }
    unfold bind, array_read. rewrite HP, E1. unfold array_alloc.
    eexists _, _. split; [reflexivity|]. simpl.
    split; [apply lookup_insert_eq|].
    split; [exact Hc1|]. split; [exact Hp|].
    intros l Hl. rewrite lookup_insert_ne by congruence. rewrite Hh. reflexivity.
Qed.

(** The run of [filterProcesses] from any store: it completes normally with
    a subsequence of the input whose records have passed the clauses. *)
Lemma filterProcesses_total {rt : Runtime} processes searchTerm filters s P :
  arrays s !! processes = Some P ->
  exists q s' out,
    filterProcesses processes searchTerm filters s = (Normal q, s')
    /\ arrays s' !! q = Some out
    /\ out `sublist_of` P
    /\ Forall (fun r => passes_clauses filters r = true) out
    /\ isPinned s' = isPinned s
    /\ (forall l, l <> q -> arrays s' !! l = arrays s !! l).
Proof.
  intros HP. unfold filterProcesses.
  destruct ((String.length searchTerm =? 0)%nat && negb (some_enabled filters))
    eqn:Efast.
  - apply andb_true_iff in Efast as [_ Hen]. apply negb_true_iff in Hen.
    exists processes, s, P. split; [reflexivity|]. split; [exact HP|].
    split; [reflexivity|]. split; [|auto].
    apply Forall_forall. intros r _.
    apply passes_clauses_none_enabled, Hen.
  - destruct (array_filter_completes (filter_frame (arrays s) (isPinned s))
                (filter_callback filters (search_terms searchTerm))
                (fun r => passes_clauses filters r = true) P
                (filter_callback_completes _ _ filters _) s)
      as (out & s1 & E1 & (Hh & Hp) & Hsub & Hall).
    { split; reflexivity. }
    unfold bind, array_read. rewrite HP, E1. unfold array_alloc.
    eexists _, _, out. split; [reflexivity|]. simpl.
    split; [apply lookup_insert_eq|].
    split; [exact Hsub|]. split; [exact Hall|]. split; [exact Hp|].
    intros l Hl. rewrite lookup_insert_ne by congruence. rewrite Hh. reflexivity.
Qed.

(** A status clause that is enabled with no value selected leaves the
    callback what it is with the clause disabled. *)
Lemma filter_callback_empty_status {rt : Runtime} filters terms process :
  values (status_filter filters) = [] ->
  filter_callback filters terms process
  = filter_callback (disable_status filters) terms process.
Proof.
  intros Hvals. rewrite !filter_callback_clauses.
  unfold passes_clauses, status_passes, disable_status. simpl.
  rewrite Hvals. simpl. rewrite !Bool.andb_false_r. reflexivity.
Qed.

(** ** The sort of the runtime *)

Lemma sort_insert_returns {A} (I : State -> Prop) (compareFn : A -> A -> M Q)
    (cmp : A -> A -> Q) (x : A) (sorted : list A) :
  (forall a b, returns I (compareFn a b) (cmp a b)) ->
  returns I (sort_insert compareFn x sorted) (insert_by cmp x sorted).
Proof.
  intros Hcmp. induction sorted as [|y rest IH]; simpl.
  - apply returns_ret.
  - apply returns_bind with (v := cmp x y); [apply Hcmp|].
    destruct (Qle_bool (cmp x y) 0); [apply returns_ret|].
    apply returns_bind with (v := insert_by cmp x rest); [exact IH|].
    apply returns_ret.
Qed.

Lemma sort_elems_returns {A} (I : State -> Prop) (compareFn : A -> A -> M Q)
    (cmp : A -> A -> Q) (arr : list A) :
  (forall a b, returns I (compareFn a b) (cmp a b)) ->
  returns I (sort_elems compareFn arr) (sorted_by cmp arr).
Proof.
  intros Hcmp. induction arr as [|x rest IH]; simpl.
  - apply returns_ret.
  - apply returns_bind with (v := sorted_by cmp rest); [exact IH|].
    apply sort_insert_returns, Hcmp.
Qed.

Lemma insert_by_perm {A} (cmp : A -> A -> Q) (x : A) (l : list A) :
  Permutation (insert_by cmp x l) (x :: l).
Proof.
  induction l as [|y rest IH]; simpl; [reflexivity|].
  destruct (Qle_bool (cmp x y) 0); [reflexivity|].
  rewrite IH. apply perm_swap.
Qed.

Lemma sorted_by_perm {A} (cmp : A -> A -> Q) (l : list A) :
  Permutation (sorted_by cmp l) l.
Proof.
  induction l as [|x rest IH]; simpl; [reflexivity|].
  rewrite insert_by_perm, IH. reflexivity.
Qed.

(** ** The comparator *)

Lemma compareFn_returns {rt : Runtime} h cache sortConfig pinnedProcesses a b :
  returns (sort_inv h cache)
    (compareFn sortConfig pinnedProcesses a b)
    (comparator sortConfig pinnedProcesses a b).
Proof.
  intros s (Hh & Hc).
  unfold comparator, result_in, compareFn, bind, isPinned_set. simpl.
  split_ifs; (eexists; split; [reflexivity | split; assumption]).
Qed.

Lemma comparator_pin_mismatch {rt : Runtime} sortConfig pinnedProcesses a b :
  pinned pinnedProcesses a <> pinned pinnedProcesses b ->
  comparator sortConfig pinnedProcesses a b
  = if pinned pinnedProcesses a then (-1)%Q else 1%Q.
Proof.
  unfold pinned, comparator, result_in, compareFn, bind, isPinned_set.
  simpl. intros Hne.
  destruct (bool_decide (command a ∈ pinnedProcesses)),
    (bool_decide (command b ∈ pinnedProcesses)); simpl;
    try reflexivity; congruence.
Qed.

(** ** Pinned records stay in front *)

Section PinsFirst.
Context {rt : Runtime}.
Variable sortConfig : SortConfig.
Variable pinnedProcesses : gset string.

Local Abbreviation cmp := (comparator sortConfig pinnedProcesses).

Lemma insert_by_pins_first x l :
  pins_first pinnedProcesses l ->
  pins_first pinnedProcesses (insert_by cmp x l).
Proof.
  induction l as [|y rest IH]; simpl.
  - intros _. split; [intros _; constructor | exact I].
  - intros [Hy Hrest].
    destruct (Qle_bool (cmp x y) 0) eqn:Hle.
    + simpl. split; [|split; assumption].
      intros Hx.
      assert (pinned pinnedProcesses y = false) as Hyu.
      { destruct (pinned pinnedProcesses y) eqn:Ey; [|reflexivity].
        rewrite comparator_pin_mismatch in Hle by congruence.
        rewrite Hx in Hle. discriminate. }
      constructor; [exact Hyu | exact (Hy Hyu)].
    + simpl. split; [|exact (IH Hrest)].
      intros Hyu.
      assert (pinned pinnedProcesses x = false) as Hx.
      { destruct (pinned pinnedProcesses x) eqn:Ex; [|reflexivity].
        rewrite comparator_pin_mismatch in Hle by congruence.
        rewrite Ex in Hle. discriminate. }
      eapply Permutation_Forall; [symmetry; apply insert_by_perm|].
      constructor; [exact Hx | exact (Hy Hyu)].
Qed.

Lemma sorted_by_pins_first l :
  pins_first pinnedProcesses (sorted_by cmp l).
Proof.
  induction l as [|x rest IH]; simpl; [exact I|].
  apply insert_by_pins_first, IH.
Qed.

Lemma pins_first_lookup l i j a b :
  pins_first pinnedProcesses l ->
  l !! i = Some a -> l !! j = Some b ->
  pinned pinnedProcesses a = true -> pinned pinnedProcesses b = false ->
  (i < j)%nat.
Proof.
  revert i j. induction l as [|x rest IH]; intros i j Hpf Ha Hb Pa Pb.
  - discriminate.
  - destruct Hpf as [Hx Hrest].
    destruct i as [|i], j as [|j]; simpl in *.
    + congruence.
    + lia.
    + exfalso. injection Hb as Hb. subst x.
      pose proof (Hx Pb) as Hall.
      rewrite Forall_forall in Hall.
      assert (pinned pinnedProcesses a = false) as Hf.
      { apply Hall. eapply list_elem_of_lookup_2. exact Ha. }
      congruence.
    + apply -> Nat.succ_lt_mono. eapply IH; eassumption.
Qed.

End PinsFirst.

(** ** The run of [sortProcesses] *)

(** It completes normally and returns a newly allocated array that holds the
    insertion-sorted elements; no other array and no cached pattern has
    changed. *)
Lemma sortProcesses_run {rt : Runtime} processes sortConfig pinnedProcesses s P :
  arrays s !! processes = Some P ->
  exists q s',
    sortProcesses processes sortConfig pinnedProcesses s = (Normal q, s')
    /\ arrays s !! q = None
    /\ arrays s' !! q
       = Some (sorted_by (comparator sortConfig pinnedProcesses) P)
    /\ (forall l, l <> q -> arrays s' !! l = arrays s !! l)
    /\ regexCache s' = regexCache s.
Proof.
  intros HP.
  set (q := fresh (dom (arrays s))).
  assert (arrays s !! q = None) as Hq.
  { apply not_elem_of_dom. apply is_fresh. }
  set (s1 := {| arrays := <[q := P]> (arrays s);
                regexCache := regexCache s; isPinned := ∅ |}).
  destruct (sort_elems_returns (sort_inv (arrays s1) (regexCache s1))
              (compareFn sortConfig pinnedProcesses)
              (comparator sortConfig pinnedProcesses) P
              (compareFn_returns _ _ sortConfig pinnedProcesses) s1)
    as (s2 & E2 & Hh2 & Hc2).
  { split; reflexivity. }
  exists q. eexists.
  unfold sortProcesses, bind, isPinned_clear, array_read at 1. simpl.
  rewrite HP. unfold array_alloc. simpl. fold q. fold s1.
  unfold array_sort, bind, array_read. simpl.
  rewrite lookup_insert_eq. rewrite E2. unfold array_write, ret.
  split; [reflexivity|]. simpl.
  split; [exact Hq|].
  split; [apply lookup_insert_eq|].
  split; [|rewrite Hc2; reflexivity].
  intros l Hl. rewrite lookup_insert_ne by congruence.
  rewrite Hh2. simpl. rewrite lookup_insert_ne by congruence. reflexivity.
Qed.

(** ** Arithmetic of the comparator *)

Lemma Qeq_bool_inject (x y : Z) :
  Qeq_bool (inject_Z x) (inject_Z y) = (x =? y)%Z.
Proof.
  destruct (Z.eqb_spec x y) as [->|Hne].
  - apply Qeq_bool_iff. reflexivity.
  - destruct (Qeq_bool (inject_Z x) (inject_Z y)) eqn:E; [|reflexivity].
    apply Qeq_bool_iff in E. apply (proj1 (inject_Z_injective _ _)) in E.
    contradiction.
Qed.

Lemma Math_max_inject (x y : Z) :
  Math_max (inject_Z x) (inject_Z y) = inject_Z (Z.max x y).
Proof.
  unfold Math_max. destruct (Qle_bool (inject_Z x) (inject_Z y)) eqn:E.
  - apply Qle_bool_iff in E. rewrite <- Zle_Qle in E.
    rewrite Z.max_r by exact E. reflexivity.
  - rewrite Z.max_l; [reflexivity|].
    destruct (Z.le_gt_cases y x) as [Hle|Hgt]; [exact Hle|].
    assert (Qle_bool (inject_Z x) (inject_Z y) = true) as E'.
    { apply Qle_bool_iff. rewrite <- Zle_Qle. lia. }
    congruence.
Qed.

Lemma lexicographic_ne (x y : Z) (c : comparison) :
  (x =? y)%Z = false -> lexicographic (x ?= y)%Z c = (x ?= y)%Z.
Proof.
  intros Hne. apply Z.eqb_neq in Hne.
  destruct (Z.compare_spec x y); [contradiction | reflexivity | reflexivity].
Qed.

Lemma lexicographic_eq (x y : Z) (c : comparison) :
  (x =? y)%Z = true -> lexicographic (x ?= y)%Z c = c.
Proof.
  intros He. apply Z.eqb_eq in He. subst y. rewrite Z.compare_refl.
  reflexivity.
Qed.

Lemma Qlt_bool_comp (x y x' y' : Q) :
  (x == x')%Q -> (y == y')%Q -> Qlt_bool x y = Qlt_bool x' y'.
Proof.
  intros Hx Hy. unfold Qlt_bool. f_equal. apply Qleb_comp; assumption.
Qed.

Lemma Qcompare_inject_Z (x y : Z) :
  (inject_Z x ?= inject_Z y)%Q = (x ?= y)%Z.
Proof. unfold Qcompare, inject_Z. simpl. rewrite !Z.mul_1_r. reflexivity. Qed.

Lemma Qcompare_minus (x y : Q) : (x - y ?= 0)%Q = (x ?= y)%Q.
Proof.
  destruct (Qcompare_spec x y) as [E|L|G].
  - apply (proj1 (Qeq_alt _ _)). lra.
  - apply (proj1 (Qlt_alt _ _)). lra.
  - apply (proj1 (Qgt_alt _ _)). lra.
Qed.

Lemma Qcompare_direction d (r : Q) :
  (direction_sign d * r ?= 0)%Q = directed d (r ?= 0)%Q.
Proof.
  destruct (Qcompare_spec r 0) as [E|L|G]; destruct d; simpl.
  - apply (proj1 (Qeq_alt _ _)). lra.
  - apply (proj1 (Qeq_alt _ _)). lra.
  - apply (proj1 (Qlt_alt _ _)). lra.
  - apply (proj1 (Qgt_alt _ _)). lra.
  - apply (proj1 (Qgt_alt _ _)). lra.
  - apply (proj1 (Qlt_alt _ _)). lra.
Qed.

(** The sign of a directed difference survives both roundings. *)
Lemma mul_sub_sign d (x y : Q) :
  (Double.mul (direction_sign d) (Double.sub x y) ?= 0)%Q
  = directed d (x ?= y)%Q.
Proof.
  unfold Double.mul, Double.sub.
  rewrite round_sign, Qcompare_direction, round_sign, Qcompare_minus.
  reflexivity.
Qed.

Lemma mul_sub_le_0 d (x y : Q) :
  (Double.mul (direction_sign d) (Double.sub x y) <= 0)%Q
  <-> (direction_sign d * (x - y) <= 0)%Q.
Proof.
  rewrite !Qle_alt, mul_sub_sign, Qcompare_direction, Qcompare_minus.
  reflexivity.
Qed.

(** Turning the difference round negates the answer. *)
Lemma mul_sub_antisym (d x y : Q) :
  Double.mul d (Double.sub y x) = (- Double.mul d (Double.sub x y))%Q.
Proof.
  unfold Double.mul, Double.sub.
  rewrite (round_comp (y - x) (- (x - y))) by ring.
  rewrite (round_opp (x - y)).
  rewrite (round_comp (d * - Double.round (x - y))
             (- (d * Double.round (x - y)))) by ring.
  apply round_opp.
Qed.

(** The descending answer is the negated ascending answer. *)
Lemma mul_direction_desc (r : Q) :
  Double.mul (direction_sign desc) r
  = (- Double.mul (direction_sign asc) r)%Q.
Proof.
  unfold Double.mul. rewrite <- round_opp. apply round_comp.
  unfold direction_sign. ring.
Qed.

Lemma add_comm (x y : Q) : Double.add x y = Double.add y x.
Proof. unfold Double.add. apply round_comp. ring. Qed.

(** Sums of integers and their products by 1.5 are exact while they fit
    the significand. *)
Lemma add_Z (x y : Z) :
  Z.abs (x + y) < 2 ^ 52 ->
  Double.add (inject_Z x) (inject_Z y) = inject_Z (x + y).
Proof.
  intros H. unfold Double.add. rewrite <- inject_Z_plus. apply round_Z, H.
Qed.

Lemma mul_three_halves (t : Z) :
  Z.abs t < 2 ^ 51 ->
  (Double.mul (inject_Z t) (3 # 2) == inject_Z t * (3 # 2))%Q.
Proof.
  intros H. unfold Double.mul. apply (round_half _ (3 * t)); [|lia].
  unfold Qeq, Qmult, inject_Z. cbn [Qnum Qden]. lia.
Qed.

Lemma Qeq_bool_sym (x y : Q) : Qeq_bool x y = Qeq_bool y x.
Proof.
  destruct (Qeq_bool x y) eqn:E, (Qeq_bool y x) eqn:E'; try reflexivity.
  - apply Qeq_bool_iff in E. symmetry in E. apply Qeq_bool_iff in E.
    congruence.
  - apply Qeq_bool_iff in E'. symmetry in E'. apply Qeq_bool_iff in E'.
    congruence.
Qed.

(** The module starts with an empty pattern cache, which is coherent. *)
Lemma regexCache_coherent_empty {rt : Runtime} : regexCache_coherent ∅.
Proof. intros term regex Hget. rewrite lookup_empty in Hget. discriminate. Qed.

(** ** Scenarios of the design document *)

(** Filter [cpu > 50], search ["chrome"]: only pid 1 is left; pid 3 matches
    the search and fails the clause. *)
Example end_to_end_scenario :
  returned_elements
    (filterProcesses (rt := Sample.engine) 1%positive "chrome"
       Sample.busy_filters Sample.store)
  = Some [Sample.chrome].
Proof. vm_compute. reflexivity. Qed.

(** A term that does not compile is passed over: the other term of the
    query still selects its record, and nothing is cached for the bad one. *)
Example malformed_term_scenario :
  let run :=
    filterProcesses (rt := Sample.engine) 1%positive "(, IDL"
      Sample.no_filters Sample.store in
  returned_elements run = Some [Sample.idle]
  /\ regexCache (snd run) !! "(" = None
  /\ regexCache (snd run) !! "IDL" = Some (mkRegExp "IDL").
Proof. vm_compute. repeat split; reflexivity. Qed.

(** A = (read 1000, write 100) against B = (read 10, write 900) is balanced
    and decided by the totals 1100 and 910: ascending, B goes first. *)
Example disk_balanced_scenario :
  classify (1000, 100) (10, 900) = Balanced
  /\ result_in Sample.store
       (compareFn (rt := Sample.engine) Sample.by_disk_asc ∅
          (Sample.disk_record 1 1000 100) (Sample.disk_record 2 10 900))
     = Normal 190%Q.
Proof. split; reflexivity. Qed.

(** A = (read 10, write 10) against B = (read 5, write 500) is
    write-dominant and decided by the writes: ascending, A goes first. *)
Example disk_write_dominant_scenario :
  classify (10, 10) (5, 500) = WriteDominant
  /\ result_in Sample.store
       (compareFn (rt := Sample.engine) Sample.by_disk_asc ∅
          (Sample.disk_record 1 10 10) (Sample.disk_record 2 5 500))
     = Normal (-490)%Q.
Proof. split; reflexivity. Qed.

(** The order that the sort produces for the cyclic triple depends on the
    order in which it receives it. *)
Example cyclic_triple_scenario :
  map pid (sorted_by (comparator (rt := Sample.engine) Sample.by_disk_asc ∅)
             [Sample.recA; Sample.recB; Sample.recC]) = [1; 2; 3]
  /\ map pid (sorted_by (comparator (rt := Sample.engine) Sample.by_disk_asc ∅)
                [Sample.recC; Sample.recB; Sample.recA]) = [3; 1; 2].
Proof. split; reflexivity. Qed.

(** * The properties of the design document *)

(** ** Ranking engine *)

(** C1. Two records compared under the sort field [disk_usage], once pin
    precedence has not already decided (both pinned or both unpinned), and
    with counters below 2^50 in magnitude, so that the sums and products of
    the comparator are exact: the comparator completes with a number whose
    sign is the direction-adjusted order of the design document. When the
    summed writes exceed 1.5 times the summed reads the order is by write
    with read breaking ties; else when the summed reads exceed 1.5 times
    the summed writes it is by read with write breaking ties; else it is by
    read + write with the larger counter breaking ties. The classification
    is a function of the two records of this comparison alone. *)
Theorem disk_usage_order_by_dominant_operation {rt : Runtime}
    sortConfig pinnedProcesses a b s :
  field sortConfig = K_disk_usage ->
  pinned pinnedProcesses a = pinned pinnedProcesses b ->
  counters_exact (disk_usage a) ->
  counters_exact (disk_usage b) ->
  exists v s',
    compareFn sortConfig pinnedProcesses a b s = (Normal v, s')
    /\ (v ?= 0)%Q
       = disk_order (direction sortConfig) (disk_usage a) (disk_usage b).
Proof.
  intros Hfield Hpin Ha Hb. unfold pinned in Hpin.
  unfold compareFn, bind, isPinned_set. simpl.
  rewrite Hpin, Bool.eqb_reflx, Hfield. simpl.
  destruct (disk_usage a) as [aRead aWrite], (disk_usage b) as [bRead bWrite].
  destruct Ha as [HaR HaW], Hb as [HbR HbW]. simpl in HaR, HaW, HbR, HbW.
  unfold disk_order, classify. simpl.
  rewrite !add_Z by lia.
  rewrite (Qlt_bool_comp _ _ _ _
             (mul_three_halves (aRead + bRead) ltac:(lia)) (Qeq_refl _)).
  rewrite (Qlt_bool_comp _ _ _ _
             (mul_three_halves (aWrite + bWrite) ltac:(lia)) (Qeq_refl _)).
  destruct (Qlt_bool _ _); [|destruct (Qlt_bool _ _)].
  - rewrite Qeq_bool_inject.
    destruct (aWrite =? bWrite)%Z eqn:E; simpl; eexists _, _;
      (split; [reflexivity|]); rewrite mul_sub_sign, Qcompare_inject_Z.
    + rewrite lexicographic_eq by exact E. reflexivity.
    + rewrite lexicographic_ne by exact E. reflexivity.
  - rewrite Qeq_bool_inject.
    destruct (aRead =? bRead)%Z eqn:E; simpl; eexists _, _;
      (split; [reflexivity|]); rewrite mul_sub_sign, Qcompare_inject_Z.
    + rewrite lexicographic_eq by exact E. reflexivity.
    + rewrite lexicographic_ne by exact E. reflexivity.
  - rewrite Qeq_bool_inject.
    destruct (aRead + aWrite =? bRead + bWrite)%Z eqn:E; simpl; eexists _, _;
      (split; [reflexivity|]).
    + rewrite !Math_max_inject, mul_sub_sign, Qcompare_inject_Z.
      rewrite lexicographic_eq by exact E. reflexivity.
    + rewrite mul_sub_sign, Qcompare_inject_Z.
      rewrite lexicographic_ne by exact E. reflexivity.
Qed.

Lemma disk_usage_order_by_dominant_operation_witness :
  exists v s',
    compareFn (rt := Sample.engine) Sample.by_disk_asc ∅
      Sample.recA Sample.recB Sample.store = (Normal v, s')
    /\ (v ?= 0)%Q = Lt.
Proof.
  apply (disk_usage_order_by_dominant_operation (rt := Sample.engine)
           Sample.by_disk_asc ∅ Sample.recA Sample.recB Sample.store);
    try reflexivity; split; reflexivity.
Defined.

(** At counters of some eight pebibytes the statement without the bound
    fails: the totals 2^54 and 2^54 + 1 of the two records are the same
    double, the comparison is decided by the larger counter and puts the
    first record behind the second, where the order by exact totals puts it
    in front. *)
Lemma disk_usage_order_fails_beyond_exact_range :
  ~ (exists v s',
       compareFn (rt := Sample.engine) Sample.by_disk_asc ∅
         Sample.hugeA Sample.hugeB Sample.store = (Normal v, s')
       /\ (v ?= 0)%Q
          = disk_order (direction Sample.by_disk_asc)
              (disk_usage Sample.hugeA) (disk_usage Sample.hugeB)).
Proof.
  intros (v & s' & Erun & Hsign).
  vm_compute in Erun. injection Erun as <- <-.
  vm_compute in Hsign. discriminate Hsign.
Qed.

(** C2. For every input array, every sort configuration (any field, either
    direction) and every pin set, [sortProcesses] completes and, in the
    array it returns, every record whose command is pinned stands before
    every record whose command is not. *)
Theorem pinned_records_precede_unpinned {rt : Runtime}
    processes sortConfig pinnedProcesses s P :
  arrays s !! processes = Some P ->
  exists q s' out,
    sortProcesses processes sortConfig pinnedProcesses s = (Normal q, s')
    /\ arrays s' !! q = Some out
    /\ Permutation out P
    /\ forall i j a b,
         out !! i = Some a -> out !! j = Some b ->
         command a ∈ pinnedProcesses -> command b ∉ pinnedProcesses ->
         (i < j)%nat.
Proof.
  intros HP.
  destruct (sortProcesses_run processes sortConfig pinnedProcesses s P HP)
    as (q & s' & Erun & _ & Hout & _).
  exists q, s', (sorted_by (comparator sortConfig pinnedProcesses) P).
  split; [exact Erun|]. split; [exact Hout|].
  split; [apply sorted_by_perm|].
  intros i j a b Ha Hb Pa Pb.
  eapply pins_first_lookup;
    [apply sorted_by_pins_first | exact Ha | exact Hb | |].
  - unfold pinned. apply bool_decide_eq_true. exact Pa.
  - unfold pinned. apply bool_decide_eq_false. exact Pb.
Qed.

Lemma pinned_records_precede_unpinned_witness :
  exists q s' out,
    sortProcesses (rt := Sample.engine) 1%positive Sample.by_cpu_desc
      {[ "idle" ]} Sample.store = (Normal q, s')
    /\ arrays s' !! q = Some out
    /\ Permutation out Sample.snapshot
    /\ forall i j a b,
         out !! i = Some a -> out !! j = Some b ->
         command a ∈ ({[ "idle" ]} : gset string) ->
         command b ∉ ({[ "idle" ]} : gset string) ->
         (i < j)%nat.
Proof.
  apply (pinned_records_precede_unpinned (rt := Sample.engine)
           1%positive Sample.by_cpu_desc {[ "idle" ]} Sample.store
           Sample.snapshot).
  reflexivity.
Defined.

(** C7. The comparator for [disk_usage] is not transitive: with no pins and
    ascending direction there are three records A, B, C such that A goes
    before B, B goes before C and C goes before A. The comparisons do not
    share one classification: A against B is write-dominant, B against C is
    balanced. *)
Theorem disk_usage_comparator_not_transitive {rt : Runtime} :
  exists A B C : Process,
    classify (disk_usage A) (disk_usage B) = WriteDominant
    /\ classify (disk_usage B) (disk_usage C) = Balanced
    /\ forall s, exists vAB vBC vCA,
         result_in s (compareFn Sample.by_disk_asc ∅ A B) = Normal vAB
         /\ result_in s (compareFn Sample.by_disk_asc ∅ B C) = Normal vBC
         /\ result_in s (compareFn Sample.by_disk_asc ∅ C A) = Normal vCA
         /\ (vAB < 0)%Q /\ (vBC < 0)%Q /\ (vCA < 0)%Q.
Proof.
  exists Sample.recA, Sample.recB, Sample.recC.
  split; [reflexivity|]. split; [reflexivity|].
  intros s. exists (-1)%Q, (-1)%Q, (-1)%Q.
  repeat split.
Qed.

(** C9. [sortProcesses] returns a new array and leaves its input alone:
    the array returned is not the input array, it did not exist before the
    call, it holds a rearrangement of the input's elements, and after the
    call the input array (like every other array that existed) holds the
    same elements in the same order as before. *)
Theorem sortProcesses_leaves_input_unmodified {rt : Runtime}
    processes sortConfig pinnedProcesses s P :
  arrays s !! processes = Some P ->
  exists q s' out,
    sortProcesses processes sortConfig pinnedProcesses s = (Normal q, s')
    /\ q <> processes
    /\ arrays s !! q = None
    /\ arrays s' !! q = Some out
    /\ Permutation out P
    /\ arrays s' !! processes = Some P
    /\ forall l, l <> q -> arrays s' !! l = arrays s !! l.
Proof.
  intros HP.
  destruct (sortProcesses_run processes sortConfig pinnedProcesses s P HP)
    as (q & s' & Erun & Hfresh & Hout & Hframe & _).
  assert (q <> processes) as Hne by congruence.
  exists q, s', (sorted_by (comparator sortConfig pinnedProcesses) P).
  split; [exact Erun|]. split; [exact Hne|]. split; [exact Hfresh|].
  split; [exact Hout|]. split; [apply sorted_by_perm|].
  split; [|exact Hframe].
  rewrite Hframe by congruence. exact HP.
Qed.

Lemma sortProcesses_leaves_input_unmodified_witness :
  exists q s' out,
    sortProcesses (rt := Sample.engine) 1%positive Sample.by_cpu_desc ∅
      Sample.store = (Normal q, s')
    /\ q <> 1%positive
    /\ arrays Sample.store !! q = None
    /\ arrays s' !! q = Some out
    /\ Permutation out Sample.snapshot
    /\ arrays s' !! 1%positive = Some Sample.snapshot
    /\ forall l, l <> q -> arrays s' !! l = arrays Sample.store !! l.
Proof.
  apply (sortProcesses_leaves_input_unmodified (rt := Sample.engine)
           1%positive Sample.by_cpu_desc ∅ Sample.store Sample.snapshot).
  reflexivity.
Defined.

(** ** Predicate engine *)

(** C3. When the search query yields at least one term, the call completes
    normally (a term that does not compile as a regular expression raises
    nothing outside the callback) and a record that has passed the status
    and numeric clauses is in the result exactly when at least one term
    matches it: the lowercased term occurs in the lowercased name or in the
    lowercased command, or the raw term occurs in the decimal string of the
    pid, or the term compiles as a case-insensitive regular expression that
    matches the name. The pattern cache is coherent when the call starts
    and is coherent again when it ends. *)
Theorem search_keeps_records_matching_some_term {rt : Runtime}
    processes searchTerm filters s P :
  regexCache_coherent (regexCache s) ->
  arrays s !! processes = Some P ->
  search_terms searchTerm <> [] ->
  exists q s' out,
    filterProcesses processes searchTerm filters s = (Normal q, s')
    /\ arrays s' !! q = Some out
    /\ regexCache_coherent (regexCache s')
    /\ forall r,
         In r P -> passes_clauses filters r = true ->
         (In r out <->
          exists term,
            In term (search_terms searchTerm) /\ term_matches r term = true).
Proof.
  intros Hc HP Hterms.
  destruct (filterProcesses_run processes searchTerm filters s P Hc HP)
    as (q & s' & Erun & Hout & Hc' & _).
  exists q, s', (List.filter (kept filters (search_terms searchTerm)) P).
  split; [exact Erun|]. split; [exact Hout|]. split; [exact Hc'|].
  intros r Hr Hpass. rewrite filter_In. unfold kept. rewrite Hpass.
  destruct (search_terms searchTerm) as [|t ts] eqn:Et; [congruence|].
  change (length (t :: ts) =? 0)%nat with false. cbv beta iota.
  rewrite Bool.andb_true_l, Bool.orb_false_l, existsb_exists.
  split; [intros [_ Hex]; exact Hex | intros Hex; split; assumption].
Qed.

Lemma search_keeps_records_matching_some_term_witness :
  exists q s' out,
    filterProcesses (rt := Sample.engine) 1%positive "chrome, ("
      Sample.busy_filters Sample.store = (Normal q, s')
    /\ arrays s' !! q = Some out
    /\ regexCache_coherent (rt := Sample.engine) (regexCache s')
    /\ forall r,
         In r Sample.snapshot ->
         passes_clauses Sample.busy_filters r = true ->
         (In r out <->
          exists term,
            In term (search_terms (rt := Sample.engine) "chrome, (")
            /\ term_matches (rt := Sample.engine) r term = true).
Proof.
  apply (search_keeps_records_matching_some_term (rt := Sample.engine)
           1%positive "chrome, (" Sample.busy_filters Sample.store
           Sample.snapshot).
  - apply regexCache_coherent_empty.
  - reflexivity.
  - apply search_terms_not_nil. discriminate.
Defined.

(** C4. Every record in the result of [filterProcesses] satisfies each
    enabled numeric clause, where the cpu clause compares [cpu_usage]
    itself, the ram clause [memory_usage / (1024 * 1024)] and the runtime
    clause [run_time / 60], both as the number that the division of the
    program gives; and a record for which the comparison of an enabled
    clause fails is not in the result. *)
Theorem numeric_clauses_hold_of_results {rt : Runtime}
    processes searchTerm filters s P :
  arrays s !! processes = Some P ->
  exists q s' out,
    filterProcesses processes searchTerm filters s = (Normal q, s')
    /\ arrays s' !! q = Some out
    /\ (forall r, In r out ->
          (enabled (cpu filters) = true ->
           compareValue (cpu_usage r)
             (operator (cpu filters)) (value (cpu filters)) = true)
          /\ (enabled (ram filters) = true ->
              compareValue
                (Double.div (inject_Z (memory_usage r)) (Double.mul 1024 1024))
                (operator (ram filters)) (value (ram filters)) = true)
          /\ (enabled (runtime filters) = true ->
              compareValue (Double.div (inject_Z (run_time r)) 60)
                (operator (runtime filters)) (value (runtime filters)) = true))
    /\ (forall r,
          (enabled (cpu filters) = true
           /\ compareValue (cpu_usage r)
                (operator (cpu filters)) (value (cpu filters)) = false)
          \/ (enabled (ram filters) = true
              /\ compareValue
                   (Double.div (inject_Z (memory_usage r))
                      (Double.mul 1024 1024))
                   (operator (ram filters)) (value (ram filters)) = false)
          \/ (enabled (runtime filters) = true
              /\ compareValue (Double.div (inject_Z (run_time r)) 60)
                   (operator (runtime filters)) (value (runtime filters))
                 = false) ->
          ~ In r out).
Proof.
  intros HP.
  destruct (filterProcesses_total processes searchTerm filters s P HP)
    as (q & s' & out & Erun & Hout & _ & Hall & _).
  exists q, s', out.
  split; [exact Erun|]. split; [exact Hout|].
  assert (forall r, In r out ->
            clause_passes (cpu filters) (cpu_usage r) = true
            /\ clause_passes (ram filters) (ram_value r) = true
            /\ clause_passes (runtime filters) (runtime_value r) = true)
    as Hkept.
  { intros r Hin. rewrite Forall_forall in Hall.
    apply list_elem_of_In in Hin. specialize (Hall r Hin).
    unfold passes_clauses in Hall.
    apply andb_true_iff in Hall as [Hall Hrun].
    apply andb_true_iff in Hall as [Hall Hram].
    apply andb_true_iff in Hall as [_ Hcpu]. auto. }
  unfold clause_passes, ram_value, runtime_value in Hkept.
  split.
  - intros r Hin. destruct (Hkept r Hin) as (Hcpu & Hram & Hrun).
    split; [|split]; intros Hen; rewrite Hen in *;
      cbn [negb orb] in *; assumption.
  - intros r Hfail Hin. destruct (Hkept r Hin) as (Hcpu & Hram & Hrun).
    destruct Hfail as [[Hen Hf]|[[Hen Hf]|[Hen Hf]]];
      rewrite Hen, Hf in *; cbn [negb orb] in *; discriminate.
Qed.

Lemma numeric_clauses_hold_of_results_witness :
  exists q s' out,
    filterProcesses (rt := Sample.engine) 1%positive "chrome"
      Sample.busy_filters Sample.store = (Normal q, s')
    /\ arrays s' !! q = Some out
    /\ In Sample.chrome out
    /\ ~ In Sample.chromehelper out.
Proof.
  destruct (numeric_clauses_hold_of_results (rt := Sample.engine)
              1%positive "chrome" Sample.busy_filters Sample.store
              Sample.snapshot)
    as (q & s' & out & Erun & Hout & _ & Hexcl).
  - reflexivity.
  - exists q, s', out. split; [exact Erun|]. split; [exact Hout|].
    split.
    + vm_compute in Erun. injection Erun as <- <-.
      vm_compute in Hout. injection Hout as <-. left. reflexivity.
    + apply Hexcl. left. split; reflexivity.
Defined.

(** The runtime clause compares the rounded quotient: one second is kept by
    [= 0.016666666666666666], the double nearest to 1/60, and would not be
    by a threshold of exactly 1/60, which no double is; six seconds are kept
    by [>= 0.1], the quotient 6/60 and the literal being the same double. *)
Example runtime_clause_compares_the_double :
  compareValue (Double.div 1 60) "="
    (Double.round (16666666666666666 # 1000000000000000000)) = true
  /\ compareValue (Double.div 1 60) "=" (1 # 60) = false
  /\ compareValue (Double.div 6 60) ">=" (Double.round (1 # 10)) = true.
Proof. vm_compute. repeat split; reflexivity. Qed.

(** C5. With the empty search string and no clause enabled,
    [filterProcesses] returns the input array itself and touches nothing:
    the result is the very location it was given and the store is the one it
    started from, so the array holds the same elements in the same order. *)
Theorem filterProcesses_no_op_returns_input {rt : Runtime}
    processes filters s :
  some_enabled filters = false ->
  filterProcesses processes EmptyString filters s = (Normal processes, s).
Proof.
  intros Hen. unfold filterProcesses. rewrite Hen. reflexivity.
Qed.

Lemma filterProcesses_no_op_returns_input_witness :
  filterProcesses (rt := Sample.engine) 1%positive EmptyString
    Sample.no_filters Sample.store
  = (Normal 1%positive, Sample.store).
Proof.
  apply (filterProcesses_no_op_returns_input (rt := Sample.engine)
           1%positive Sample.no_filters Sample.store).
  reflexivity.
Defined.

(** C6. For every array, search string and filter configuration, the
    result of [filterProcesses] is an order-preserving subsequence of the
    input: it is obtained from the input by dropping elements, so that
    nothing is reordered, repeated or invented. *)
Theorem filterProcesses_subsequence {rt : Runtime}
    processes searchTerm filters s P :
  arrays s !! processes = Some P ->
  exists q s' out,
    filterProcesses processes searchTerm filters s = (Normal q, s')
    /\ arrays s' !! q = Some out
    /\ out `sublist_of` P.
Proof.
  intros HP.
  destruct (filterProcesses_total processes searchTerm filters s P HP)
    as (q & s' & out & Erun & Hout & Hsub & _).
  exists q, s', out. auto.
Qed.

Lemma filterProcesses_subsequence_witness :
  exists q s' out,
    filterProcesses (rt := Sample.engine) 1%positive "chrome"
      Sample.busy_filters Sample.store = (Normal q, s')
    /\ arrays s' !! q = Some out
    /\ out `sublist_of` Sample.snapshot.
Proof.
  apply (filterProcesses_subsequence (rt := Sample.engine)
           1%positive "chrome" Sample.busy_filters Sample.store
           Sample.snapshot).
  reflexivity.
Defined.

(** C8. [compareValue] answers [value > target] for [">"],
    [value < target] for ["<"], equality for ["="], and the non-strict
    comparisons for [">="] and ["<="]; for every other operator string it
    answers true, so that an enabled clause with such an operator lets
    every derived value through. *)
Theorem compareValue_semantics (v target : Q) :
  (compareValue v ">" target = true <-> (target < v)%Q)
  /\ (compareValue v "<" target = true <-> (v < target)%Q)
  /\ (compareValue v "=" target = true <-> (v == target)%Q)
  /\ (compareValue v ">=" target = true <-> (target <= v)%Q)
  /\ (compareValue v "<=" target = true <-> (v <= target)%Q)
  /\ (forall op,
        ~ In op known_operators ->
        compareValue v op target = true
        /\ clause_passes
             {| operator := op; value := target; enabled := true |} v = true).
Proof.
  assert (forall x y : Q, Qlt_bool x y = true <-> (x < y)%Q) as Hlt.
  { intros x y. unfold Qlt_bool. rewrite negb_true_iff.
    split.
    - intros Hle. apply Qnot_le_lt. intros Hyx.
      apply Qle_bool_iff in Hyx. congruence.
    - intros Hxy. destruct (Qle_bool y x) eqn:E; [|reflexivity].
      apply Qle_bool_iff in E. exfalso. exact (Qlt_not_le _ _ Hxy E). }
  unfold compareValue. simpl.
  split; [apply Hlt|]. split; [apply Hlt|].
  split; [apply Qeq_bool_iff|].
  split; [apply Qle_bool_iff|]. split; [apply Qle_bool_iff|].
  intros op Hop. unfold clause_passes, compareValue. simpl.
  unfold known_operators in Hop. simpl in Hop.
  destruct (String.eqb_spec op ">") as [->|_]; [exfalso; auto 10|].
  destruct (String.eqb_spec op "<") as [->|_]; [exfalso; auto 10|].
  destruct (String.eqb_spec op "=") as [->|_]; [exfalso; auto 10|].
  destruct (String.eqb_spec op ">=") as [->|_]; [exfalso; auto 10|].
  destruct (String.eqb_spec op "<=") as [->|_]; [exfalso; auto 10|].
  split; reflexivity.
Qed.

Lemma compareValue_semantics_witness :
  compareValue 70 "!=" 50 = true
  /\ clause_passes {| operator := "!="; value := 50; enabled := true |} 70
     = true.
Proof.
  apply (compareValue_semantics 70 50).
  unfold known_operators. simpl. intros Hin.
  repeat destruct Hin as [Hin|Hin]; try discriminate Hin; exact Hin.
Defined.

(** C10. A status clause that is enabled while its set of values is empty
    constrains nothing: from the same store, [filterProcesses] returns
    arrays with the same sequence of elements for such filters and for the
    same filters with the status clause disabled. *)
Theorem empty_status_clause_constrains_nothing {rt : Runtime}
    processes searchTerm filters s P :
  arrays s !! processes = Some P ->
  status_enabled (status_filter filters) = true ->
  values (status_filter filters) = [] ->
  exists q1 s1 q2 s2 out,
    filterProcesses processes searchTerm filters s = (Normal q1, s1)
    /\ filterProcesses processes searchTerm (disable_status filters) s
       = (Normal q2, s2)
    /\ arrays s1 !! q1 = Some out
    /\ arrays s2 !! q2 = Some out.
Proof.
  intros HP Hen Hvals.
  assert (some_enabled filters = true) as Hsome.
  { unfold some_enabled. simpl. rewrite Hen.
    destruct (enabled (cpu filters)), (enabled (ram filters)),
      (enabled (runtime filters)); reflexivity. }
  assert (filterProcesses processes searchTerm filters s
          = (let* kept :=
               array_filter
                 (filter_callback (disable_status filters)
                    (search_terms searchTerm)) P in
             array_alloc kept) s) as Eslow.
  { unfold filterProcesses. rewrite Hsome, Bool.andb_false_r. simpl.
    unfold bind at 1, array_read. rewrite HP.
    rewrite (array_filter_ext _
               (filter_callback (disable_status filters)
                  (search_terms searchTerm)))
      by (intros r; apply filter_callback_empty_status; exact Hvals).
    reflexivity. }
  destruct ((String.length searchTerm =? 0)%nat
            && negb (some_enabled (disable_status filters))) eqn:Efast.
  - (* the disabled clause takes the early return, the enabled one does not *)
    apply andb_true_iff in Efast as [Hlen Hnone].
    apply length_zero_empty in Hlen. subst searchTerm.
    apply negb_true_iff in Hnone.
    assert (forall r,
              filter_callback (disable_status filters) (search_terms "") r
              = ret true) as Hcb.
    { intros r. rewrite filter_callback_clauses.
      rewrite passes_clauses_none_enabled by exact Hnone. reflexivity. }
    eexists _, _, processes, s, P.
    split.
    { rewrite Eslow. unfold bind.
      rewrite (array_filter_ext _ (fun _ => ret true)) by exact Hcb.
      rewrite array_filter_ret_true. reflexivity. }
    split.
    { unfold filterProcesses. simpl String.length.
      rewrite Hnone. reflexivity. }
    split; [apply lookup_insert_eq | exact HP].
  - (* both take the filtering path, with the same callback *)
    destruct (filterProcesses_total processes searchTerm
                (disable_status filters) s P HP)
      as (q & s' & out & Erun & Hout & _).
    exists q, s', q, s', out.
    split; [|auto].
    rewrite Eslow. unfold filterProcesses in Erun. rewrite Efast in Erun.
    unfold bind at 1, array_read in Erun. rewrite HP in Erun.
    exact Erun.
Qed.

Lemma empty_status_clause_constrains_nothing_witness :
  exists q1 s1 q2 s2 out,
    filterProcesses (rt := Sample.engine) 1%positive "chrome"
      Sample.empty_status_filters Sample.store = (Normal q1, s1)
    /\ filterProcesses (rt := Sample.engine) 1%positive "chrome"
         (disable_status Sample.empty_status_filters) Sample.store
       = (Normal q2, s2)
    /\ arrays s1 !! q1 = Some out
    /\ arrays s2 !! q2 = Some out.
Proof.
  apply (empty_status_clause_constrains_nothing (rt := Sample.engine)
           1%positive "chrome" Sample.empty_status_filters Sample.store
           Sample.snapshot).
  - reflexivity.
  - reflexivity.
  - reflexivity.
Defined.

(** * Further properties of the code *)

(** ** Formatting helpers *)

(** X1. For a non-negative number of seconds [formatUptime] prints whole
    days, hours below 24 and minutes below 60 that together account for the
    input up to the seconds of the last, unfinished minute. *)
Theorem formatUptime_decomposes (seconds : Z) :
  0 <= seconds ->
  exists days hours minutes,
    formatUptime seconds
    = (Js.toString days ++ "d " ++ Js.toString hours ++ "h "
       ++ Js.toString minutes ++ "m")%string
    /\ 0 <= days /\ 0 <= hours < 24 /\ 0 <= minutes < 60
    /\ days * 86400 + hours * 3600 + minutes * 60 <= seconds
       < days * 86400 + hours * 3600 + minutes * 60 + 60.
Proof.
  intros Hpos.
  exists (uptime_days seconds), (uptime_hours seconds),
    (uptime_minutes seconds).
  split; [reflexivity|].
  unfold uptime_days, uptime_hours, uptime_minutes.
  rewrite !Z.rem_mod_nonneg by lia.
  Z.to_euclidean_division_equations. lia.
Qed.

Lemma formatUptime_decomposes_witness :
  exists days hours minutes,
    formatUptime 90061
    = (Js.toString days ++ "d " ++ Js.toString hours ++ "h "
       ++ Js.toString minutes ++ "m")%string
    /\ 0 <= days /\ 0 <= hours < 24 /\ 0 <= minutes < 60
    /\ days * 86400 + hours * 3600 + minutes * 60 <= 90061
       < days * 86400 + hours * 3600 + minutes * 60 + 60.
Proof. apply (formatUptime_decomposes 90061). lia. Defined.

(** Reading the boolean tests on rationals as propositions. *)
Lemma Qle_bool_false (x y : Q) : Qle_bool x y = false -> (y < x)%Q.
Proof.
  intros E. apply Qnot_le_lt. intros Hle.
  apply Qle_bool_iff in Hle. congruence.
Qed.

Lemma Qlt_bool_true (x y : Q) : Qlt_bool x y = true -> (x < y)%Q.
Proof.
  unfold Qlt_bool. intros E. apply negb_true_iff in E.
  apply Qle_bool_false, E.
Qed.

Lemma Qlt_bool_false (x y : Q) : Qlt_bool x y = false -> (y <= x)%Q.
Proof.
  unfold Qlt_bool. intros E. apply negb_false_iff in E.
  apply Qle_bool_iff, E.
Qed.

Lemma Qeq_bool_false (x y : Q) : Qeq_bool x y = false -> ~ (x == y)%Q.
Proof. intros E Heq. apply Qeq_bool_iff in Heq. congruence. Qed.

Ltac Qbool_to_prop :=
  repeat match goal with
         | E : Qle_bool _ _ = true |- _ => apply Qle_bool_iff in E
         | E : Qle_bool _ _ = false |- _ => apply Qle_bool_false in E
         | E : Qlt_bool _ _ = true |- _ => apply Qlt_bool_true in E
         | E : Qlt_bool _ _ = false |- _ => apply Qlt_bool_false in E
         | E : Qeq_bool _ _ = true |- _ => apply Qeq_bool_iff in E
         | E : Qeq_bool _ _ = false |- _ => apply Qeq_bool_false in E
         end.

Lemma Qdiv_1024_ge_1 (x : Q) : (1024 <= x)%Q -> (1 <= x / 1024)%Q.
Proof. intros Hx. apply Qle_shift_div_l; lra. Qed.

(** X2. [formatBytes] leaves its loop with a unit that exists and a value
    that is the input divided by 1024 once per unit step; below the last
    unit the value is under 1024, above the first it is at least 1, and the
    plain byte unit is used exactly for inputs under 1024. *)
Theorem formatBytes_scaling (bytes : Z) :
  exists value unitIndex unit,
    formatBytes_scaled bytes = (value, unitIndex)
    /\ units !! unitIndex = Some unit
    /\ formatBytes bytes = (toFixed1 value ++ " " ++ unit)%string
    /\ (value * inject_Z (1024 ^ Z.of_nat unitIndex) == inject_Z bytes)%Q
    /\ ((unitIndex < 4)%nat -> (value < 1024)%Q)
    /\ ((0 < unitIndex)%nat -> (1 <= value)%Q)
    /\ (unitIndex = 0%nat <-> bytes < 1024).
Proof.
  assert (forall b, (inject_Z b < 1024)%Q <-> b < 1024) as Hlt.
  { intros b. change 1024%Q with (inject_Z 1024). rewrite <- Zlt_Qlt.
    reflexivity. }
  unfold formatBytes, formatBytes_scaled. cbn -[Qle_bool Qdiv toFixed1].
  destruct (Qle_bool 1024 (inject_Z bytes)) eqn:E0;
    cbn -[Qle_bool Qdiv toFixed1].
  2:{ Qbool_to_prop. exists (inject_Z bytes), 0%nat, UNITS_byte.
      repeat split; try reflexivity; try lia; try (intros; lra).
      - change (inject_Z (1024 ^ Z.of_nat 0)) with 1%Q. ring.
      - intros _. apply Hlt, E0. }
  destruct (Qle_bool 1024 (inject_Z bytes / 1024)) eqn:E1;
    cbn -[Qle_bool Qdiv toFixed1].
  2:{ Qbool_to_prop. exists (inject_Z bytes / 1024)%Q, 1%nat, UNITS_kilo.
      repeat split; try reflexivity; try lia; try (intros; lra).
      - change (inject_Z (1024 ^ Z.of_nat 1)) with 1024%Q. field.
      - intros _. apply Qdiv_1024_ge_1, E0.
      - intros Hb. apply Hlt in Hb. lra. }
  destruct (Qle_bool 1024 (inject_Z bytes / 1024 / 1024)) eqn:E2;
    cbn -[Qle_bool Qdiv toFixed1].
  2:{ Qbool_to_prop.
      exists (inject_Z bytes / 1024 / 1024)%Q, 2%nat, UNITS_mega.
      repeat split; try reflexivity; try lia; try (intros; lra).
      - change (inject_Z (1024 ^ Z.of_nat 2)) with (1024 * 1024)%Q. field.
      - intros _. apply Qdiv_1024_ge_1, E1.
      - intros Hb. apply Hlt in Hb. lra. }
  destruct (Qle_bool 1024 (inject_Z bytes / 1024 / 1024 / 1024)) eqn:E3;
    cbn -[Qle_bool Qdiv toFixed1].
  2:{ Qbool_to_prop.
      exists (inject_Z bytes / 1024 / 1024 / 1024)%Q, 3%nat, UNITS_giga.
      repeat split; try reflexivity; try lia; try (intros; lra).
      - change (inject_Z (1024 ^ Z.of_nat 3)) with (1024 * 1024 * 1024)%Q.
        field.
      - intros _. apply Qdiv_1024_ge_1, E2.
      - intros Hb. apply Hlt in Hb. lra. }
  rewrite Bool.andb_false_r. Qbool_to_prop.
  exists (inject_Z bytes / 1024 / 1024 / 1024 / 1024)%Q, 4%nat, UNITS_tera.
  repeat split; try reflexivity; try lia; try (intros; lra).
  - change (inject_Z (1024 ^ Z.of_nat 4))
      with (1024 * 1024 * 1024 * 1024)%Q.
    field.
  - intros _. apply Qdiv_1024_ge_1, E3.
  - intros Hb. apply Hlt in Hb. lra.
Qed.

(** [toFixed] prints equal numbers alike, however they were computed. *)
Lemma toFixed1_comp (x y : Q) : (x == y)%Q -> toFixed1 x = toFixed1 y.
Proof.
  intros Hxy. unfold toFixed1.
  rewrite (Qlt_bool_comp x 0 y 0 Hxy (Qeq_refl 0)).
  destruct (Qlt_bool y 0).
  - rewrite (Qfloor_comp (- x * 10 + (1 # 2)) (- y * 10 + (1 # 2)))
      by (rewrite Hxy; reflexivity).
    reflexivity.
  - rewrite (Qfloor_comp (x * 10 + (1 # 2)) (y * 10 + (1 # 2)))
      by (rewrite Hxy; reflexivity).
    reflexivity.
Qed.

(** X3. From one GiB up to, but not including, one TiB, [formatBytes] and
    [formatMemorySize] print the same text. *)
Theorem formatBytes_agrees_with_formatMemorySize (bytes : Z) :
  1024 * 1024 * 1024 <= bytes < 1024 * 1024 * 1024 * 1024 ->
  formatBytes bytes = formatMemorySize bytes.
Proof.
  intros [Hlo Hhi].
  rewrite Zle_Qle in Hlo. rewrite Zlt_Qlt in Hhi.
  change (inject_Z (1024 * 1024 * 1024)) with (1024 * 1024 * 1024)%Q in Hlo.
  change (inject_Z (1024 * 1024 * 1024 * 1024))
    with (1024 * 1024 * 1024 * 1024)%Q in Hhi.
  assert (Qle_bool 1024 (inject_Z bytes) = true) as E0
    by (apply Qle_bool_iff; lra).
  assert (Qle_bool 1024 (inject_Z bytes / 1024) = true) as E1
    by (apply Qle_bool_iff, Qle_shift_div_l; lra).
  assert (Qle_bool 1024 (inject_Z bytes / 1024 / 1024) = true) as E2.
  { apply Qle_bool_iff, Qle_shift_div_l; [lra|].
    apply Qle_shift_div_l; lra. }
  assert (Qle_bool 1024 (inject_Z bytes / 1024 / 1024 / 1024) = false) as E3.
  { destruct (Qle_bool 1024 (inject_Z bytes / 1024 / 1024 / 1024)) eqn:E;
      [|reflexivity].
    apply Qle_bool_iff in E. exfalso.
    assert (inject_Z bytes / 1024 / 1024 / 1024 * (1024 * 1024 * 1024)
            == inject_Z bytes)%Q as Hv by field.
    nra. }
  unfold formatBytes, formatBytes_scaled, formatMemorySize.
  cbn -[Qle_bool Qdiv toFixed1].
  rewrite E0. cbn -[Qle_bool Qdiv toFixed1].
  rewrite E1. cbn -[Qle_bool Qdiv toFixed1].
  rewrite E2. cbn -[Qle_bool Qdiv toFixed1].
  rewrite E3. cbn -[Qle_bool Qdiv toFixed1].
  f_equal. apply toFixed1_comp. field.
Qed.

Lemma formatBytes_agrees_with_formatMemorySize_witness :
  formatBytes (3 * 1024 * 1024 * 1024 + 512 * 1024 * 1024)
  = formatMemorySize (3 * 1024 * 1024 * 1024 + 512 * 1024 * 1024).
Proof.
  apply (formatBytes_agrees_with_formatMemorySize
           (3 * 1024 * 1024 * 1024 + 512 * 1024 * 1024)).
  lia.
Defined.

(** X4. [getUsageClass] is monotone: a larger percentage is never put in a
    less alarming class. *)
Theorem getUsageClass_monotone (p q : Q) :
  (p <= q)%Q ->
  (usage_rank (getUsageClass p) <= usage_rank (getUsageClass q))%nat.
Proof.
  intros Hpq. unfold getUsageClass.
  destruct (Qle_bool 90 p) eqn:P90, (Qle_bool 90 q) eqn:Q90,
    (Qle_bool 60 p) eqn:P60, (Qle_bool 60 q) eqn:Q60,
    (Qle_bool 30 p) eqn:P30, (Qle_bool 30 q) eqn:Q30;
    Qbool_to_prop; try (exfalso; lra); vm_compute; lia.
Qed.

Lemma getUsageClass_monotone_witness :
  (usage_rank (getUsageClass 45) <= usage_rank (getUsageClass (181 # 2)))%nat.
Proof. apply (getUsageClass_monotone 45 (181 # 2)). unfold Qle. simpl. lia. Defined.

(** ** More on [filterProcesses] *)

Lemma filter_filter_same {A} (g : A -> bool) (l : list A) :
  List.filter g (List.filter g l) = List.filter g l.
Proof.
  induction l as [|x l IH]; simpl; [reflexivity|].
  destruct (g x) eqn:E; simpl; [rewrite E, IH|rewrite IH]; reflexivity.
Qed.

Lemma includes_empty (s : string) : Js.includes s EmptyString = true.
Proof. destruct s; reflexivity. Qed.

(** X5. [filterProcesses] writes to no array that exists: every array of
    the store holds afterwards what it held before, and [isPinned] is not
    touched. The array returned is the input itself on the early return
    (and then the whole store is as it was) and a newly allocated one in
    every other case, also when every record is kept. *)
Theorem filterProcesses_writes_no_existing_array {rt : Runtime}
    processes searchTerm filters s P :
  arrays s !! processes = Some P ->
  exists q s',
    filterProcesses processes searchTerm filters s = (Normal q, s')
    /\ (forall l elems,
          arrays s !! l = Some elems -> arrays s' !! l = Some elems)
    /\ isPinned s' = isPinned s
    /\ (if (String.length searchTerm =? 0)%nat && negb (some_enabled filters)
        then q = processes /\ s' = s
        else arrays s !! q = None /\ q <> processes).
Proof.
  intros HP. unfold filterProcesses.
  destruct ((String.length searchTerm =? 0)%nat && negb (some_enabled filters)).
  - exists processes, s. auto.
  - destruct (array_filter_completes (filter_frame (arrays s) (isPinned s))
                (filter_callback filters (search_terms searchTerm))
                (fun r => passes_clauses filters r = true) P
                (filter_callback_completes _ _ filters _) s)
      as (out & s1 & E1 & (Hh & Hp) & _).
    { split; reflexivity. }
    assert (arrays s !! fresh (dom (arrays s)) = None) as Hfresh.
    { apply not_elem_of_dom, is_fresh. }
    unfold bind, array_read. rewrite HP, E1. unfold array_alloc.
    eexists _, _. split; [reflexivity|]. simpl. rewrite Hh.
    split; [|split; [exact Hp|split; [exact Hfresh | congruence]]].
    intros l elems Hl. rewrite lookup_insert_ne by congruence. exact Hl.
Qed.

Lemma filterProcesses_writes_no_existing_array_witness :
  exists q s',
    filterProcesses (rt := Sample.engine) 1%positive "chrome"
      Sample.no_filters Sample.store = (Normal q, s')
    /\ (forall l elems,
          arrays Sample.store !! l = Some elems -> arrays s' !! l = Some elems)
    /\ isPinned s' = isPinned Sample.store
    /\ arrays Sample.store !! q = None /\ q <> 1%positive.
Proof.
  apply (filterProcesses_writes_no_existing_array (rt := Sample.engine)
           1%positive "chrome" Sample.no_filters Sample.store
           Sample.snapshot).
  reflexivity.
Defined.

(** X6. The pattern cache does not change results: a second call with the
    same arguments, made from the store that the first call left behind
    (with the patterns it compiled now cached), returns an array with the
    same elements as the first. *)
Theorem filterProcesses_repeat_same_result {rt : Runtime}
    processes searchTerm filters s P :
  regexCache_coherent (regexCache s) ->
  arrays s !! processes = Some P ->
  exists q1 s1 q2 s2 out,
    filterProcesses processes searchTerm filters s = (Normal q1, s1)
    /\ filterProcesses processes searchTerm filters s1 = (Normal q2, s2)
    /\ arrays s1 !! q1 = Some out
    /\ arrays s2 !! q2 = Some out.
Proof.
  intros Hc HP.
  destruct (filterProcesses_run processes searchTerm filters s P Hc HP)
    as (q1 & s1 & Erun1 & Hout1 & Hc1 & _ & Hframe1).
  assert (exists P', arrays s1 !! processes = Some P'
                     /\ List.filter (kept filters (search_terms searchTerm)) P'
                        = List.filter (kept filters (search_terms searchTerm)) P)
    as (P' & HP' & Hsame).
  { destruct (decide (processes = q1)) as [->|Hne].
    - eexists. split; [exact Hout1 | apply filter_filter_same].
    - exists P. split; [|reflexivity].
      rewrite Hframe1 by exact Hne. exact HP. }
  destruct (filterProcesses_run processes searchTerm filters s1 P' Hc1 HP')
    as (q2 & s2 & Erun2 & Hout2 & _).
  exists q1, s1, q2, s2,
    (List.filter (kept filters (search_terms searchTerm)) P).
  rewrite Hsame in Hout2. auto.
Qed.

Lemma filterProcesses_repeat_same_result_witness :
  exists q1 s1 q2 s2 out,
    filterProcesses (rt := Sample.engine) 1%positive "CHR"
      Sample.no_filters Sample.store = (Normal q1, s1)
    /\ filterProcesses (rt := Sample.engine) 1%positive "CHR"
         Sample.no_filters s1 = (Normal q2, s2)
    /\ arrays s1 !! q1 = Some out
    /\ arrays s2 !! q2 = Some out.
Proof.
  apply (filterProcesses_repeat_same_result (rt := Sample.engine)
           1%positive "CHR" Sample.no_filters Sample.store Sample.snapshot).
  - apply regexCache_coherent_empty.
  - reflexivity.
Defined.

(** X7. A query one of whose trimmed terms is empty - a trailing or doubled
    comma, or a term that trimming empties - searches for nothing: the
    empty term occurs in the decimal form of every pid, so every record
    that passes the clauses is kept. *)
Theorem empty_search_term_keeps_every_record {rt : Runtime}
    processes searchTerm filters s P :
  regexCache_coherent (regexCache s) ->
  arrays s !! processes = Some P ->
  In EmptyString (search_terms searchTerm) ->
  exists q s',
    filterProcesses processes searchTerm filters s = (Normal q, s')
    /\ arrays s' !! q = Some (List.filter (passes_clauses filters) P).
Proof.
  intros Hc HP Hin.
  destruct (filterProcesses_run processes searchTerm filters s P Hc HP)
    as (q & s' & Erun & Hout & _).
  exists q, s'. split; [exact Erun|]. rewrite Hout. f_equal.
  apply filter_ext. intros r. unfold kept.
  assert (existsb (term_matches r) (search_terms searchTerm) = true) as ->.
  { apply existsb_exists. exists EmptyString. split; [exact Hin|].
    unfold term_matches. cbn [Js.includes]. rewrite includes_empty.
    rewrite Bool.orb_true_r. reflexivity. }
  rewrite Bool.orb_true_r, Bool.andb_true_r. reflexivity.
Qed.

Lemma empty_search_term_keeps_every_record_witness :
  exists q s',
    filterProcesses (rt := Sample.engine) 1%positive "nothing, "
      Sample.busy_filters Sample.store = (Normal q, s')
    /\ arrays s' !! q
       = Some (List.filter (passes_clauses Sample.busy_filters)
                 Sample.snapshot).
Proof.
  apply (empty_search_term_keeps_every_record (rt := Sample.engine)
           1%positive "nothing, " Sample.busy_filters Sample.store
           Sample.snapshot).
  - apply regexCache_coherent_empty.
  - reflexivity.
  - right. left. reflexivity.
Defined.

(** X8. Filtering is idempotent: filtering the array that a call returned,
    with the same search string and filters, returns the same elements. *)
Theorem filterProcesses_idempotent {rt : Runtime}
    processes searchTerm filters s P :
  regexCache_coherent (regexCache s) ->
  arrays s !! processes = Some P ->
  exists q1 s1 q2 s2 out,
    filterProcesses processes searchTerm filters s = (Normal q1, s1)
    /\ arrays s1 !! q1 = Some out
    /\ filterProcesses q1 searchTerm filters s1 = (Normal q2, s2)
    /\ arrays s2 !! q2 = Some out.
Proof.
  intros Hc HP.
  destruct (filterProcesses_run processes searchTerm filters s P Hc HP)
    as (q1 & s1 & Erun1 & Hout1 & Hc1 & _).
  destruct (filterProcesses_run q1 searchTerm filters s1 _ Hc1 Hout1)
    as (q2 & s2 & Erun2 & Hout2 & _).
  rewrite filter_filter_same in Hout2.
  exists q1, s1, q2, s2,
    (List.filter (kept filters (search_terms searchTerm)) P).
  auto.
Qed.

Lemma filterProcesses_idempotent_witness :
  exists q1 s1 q2 s2 out,
    filterProcesses (rt := Sample.engine) 1%positive "chrome"
      Sample.busy_filters Sample.store = (Normal q1, s1)
    /\ arrays s1 !! q1 = Some out
    /\ filterProcesses (rt := Sample.engine) q1 "chrome"
         Sample.busy_filters s1 = (Normal q2, s2)
    /\ arrays s2 !! q2 = Some out.
Proof.
  apply (filterProcesses_idempotent (rt := Sample.engine)
           1%positive "chrome" Sample.busy_filters Sample.store
           Sample.snapshot).
  - apply regexCache_coherent_empty.
  - reflexivity.
Defined.

(** ** More on [sortProcesses] *)

Section SortedByOrder.
Context {A : Type}.
Variable cmp : A -> A -> Q.

Local Abbreviation before := (fun a b => Qle_bool (cmp a b) 0 = true).

Hypothesis before_total :
  forall a b, Qle_bool (cmp a b) 0 = true \/ Qle_bool (cmp b a) 0 = true.
Hypothesis before_trans :
  forall a b c,
    Qle_bool (cmp a b) 0 = true -> Qle_bool (cmp b c) 0 = true ->
    Qle_bool (cmp a c) 0 = true.

(** For a comparator that is a total preorder the insertion sort sorts. *)
Lemma insert_by_StronglySorted x l :
  StronglySorted before l -> StronglySorted before (insert_by cmp x l).
Proof.
  induction l as [|y rest IH]; simpl; intros Hs.
  - repeat constructor.
  - apply StronglySorted_inv in Hs as [Hrest Hy].
    destruct (Qle_bool (cmp x y) 0) eqn:Hxy.
    + constructor; [constructor; assumption|].
      constructor; [exact Hxy|].
      eapply Forall_impl; [exact Hy|].
      intros z Hyz. exact (before_trans x y z Hxy Hyz).
    + constructor; [exact (IH Hrest)|].
      eapply Permutation_Forall; [symmetry; apply insert_by_perm|].
      constructor; [|exact Hy].
      destruct (before_total x y) as [Hc|Hc]; [congruence | exact Hc].
Qed.

Lemma sorted_by_StronglySorted l : StronglySorted before (sorted_by cmp l).
Proof.
  induction l as [|x rest IH]; simpl; [constructor|].
  apply insert_by_StronglySorted, IH.
Qed.

End SortedByOrder.

Lemma StronglySorted_lookup {A} (R : A -> A -> Prop) (l : list A) i j a b :
  StronglySorted R l -> (i < j)%nat ->
  l !! i = Some a -> l !! j = Some b -> R a b.
Proof.
  intros Hs. revert i j. induction Hs as [|x rest Hrest IH Hx];
    intros i j Hij Ha Hb; [discriminate|].
  destruct j as [|j]; [lia|]. simpl in Hb.
  destruct i as [|i]; simpl in Ha.
  - injection Ha as <-. rewrite Forall_forall in Hx. apply Hx.
    eapply list_elem_of_lookup_2, Hb.
  - apply (IH i j); [lia | assumption | assumption].
Qed.

(** On a numeric field the comparator is the pin test followed by the
    directed difference of the two keys, as the subtraction and the
    multiplication of the program give it. *)
Lemma comparator_numeric {rt : Runtime} sortConfig pinnedProcesses a b :
  numeric_field (field sortConfig) = true ->
  comparator sortConfig pinnedProcesses a b
  = if negb (Bool.eqb (pinned pinnedProcesses a) (pinned pinnedProcesses b))
    then (if pinned pinnedProcesses a then -1 else 1)%Q
    else Double.mul (direction_sign (direction sortConfig))
           (Double.sub (sort_key (field sortConfig) a)
              (sort_key (field sortConfig) b)).
Proof.
  intros Hnum.
  unfold comparator, result_in, compareFn, bind, isPinned_set, pinned,
    sort_key. simpl.
  destruct (negb _); [reflexivity|].
  destruct (field sortConfig); try discriminate Hnum; reflexivity.
Qed.

Lemma comparator_numeric_before {rt : Runtime} sortConfig pinnedProcesses a b :
  numeric_field (field sortConfig) = true ->
  Qle_bool (comparator sortConfig pinnedProcesses a b) 0 = true <->
    (pinned pinnedProcesses a = true /\ pinned pinnedProcesses b = false)
    \/ (pinned pinnedProcesses a = pinned pinnedProcesses b
        /\ (direction_sign (direction sortConfig)
            * (sort_key (field sortConfig) a - sort_key (field sortConfig) b)
            <= 0)%Q).
Proof.
  intros Hnum. rewrite comparator_numeric by exact Hnum.
  rewrite <- mul_sub_le_0.
  destruct (pinned pinnedProcesses a), (pinned pinnedProcesses b); simpl;
    rewrite Qle_bool_iff; intuition (try discriminate; try lra).
Qed.

(** X9. Sorting by a numeric field ([pid], [cpu_usage], [memory_usage],
    [run_time]) orders the records by that field within each pin group: of
    two records with the same pin status, the earlier one in the result has
    the key that is not larger (ascending) or not smaller (descending). *)
Theorem sortProcesses_orders_numeric_field {rt : Runtime}
    processes sortConfig pinnedProcesses s P :
  arrays s !! processes = Some P ->
  numeric_field (field sortConfig) = true ->
  exists q s' out,
    sortProcesses processes sortConfig pinnedProcesses s = (Normal q, s')
    /\ arrays s' !! q = Some out
    /\ forall i j a b,
         (i < j)%nat -> out !! i = Some a -> out !! j = Some b ->
         pinned pinnedProcesses a = pinned pinnedProcesses b ->
         match direction sortConfig with
         | asc =>
             (sort_key (field sortConfig) a <= sort_key (field sortConfig) b)%Q
         | desc =>
             (sort_key (field sortConfig) b <= sort_key (field sortConfig) a)%Q
         end.
Proof.
  intros HP Hnum.
  destruct (sortProcesses_run processes sortConfig pinnedProcesses s P HP)
    as (q & s' & Erun & _ & Hout & _).
  exists q, s', (sorted_by (comparator sortConfig pinnedProcesses) P).
  split; [exact Erun|]. split; [exact Hout|].
  intros i j a b Hij Ha Hb Hpin.
  assert (StronglySorted
            (fun x y =>
               Qle_bool (comparator sortConfig pinnedProcesses x y) 0 = true)
            (sorted_by (comparator sortConfig pinnedProcesses) P)) as Hsorted.
  { apply sorted_by_StronglySorted.
    - (* total *)
      intros x y. rewrite !comparator_numeric_before by exact Hnum.
      destruct (pinned pinnedProcesses x), (pinned pinnedProcesses y);
        try (left; left; split; reflexivity);
        try (right; left; split; reflexivity);
        destruct (direction sortConfig); simpl;
        destruct (Qlt_le_dec (sort_key (field sortConfig) x)
                    (sort_key (field sortConfig) y));
        try (left; right; split; [reflexivity | lra]);
        right; right; split; try reflexivity; lra.
    - (* transitive *)
      intros x y z. rewrite !comparator_numeric_before by exact Hnum.
      destruct (pinned pinnedProcesses x), (pinned pinnedProcesses y),
        (pinned pinnedProcesses z);
        intros [[? ?]|[? Hxy]] [[? ?]|[? Hyz]]; try discriminate;
        try (left; split; reflexivity);
        right; (split; [reflexivity|]);
        destruct (direction sortConfig); simpl in *; lra. }
  pose proof (StronglySorted_lookup _ _ i j a b Hsorted Hij Ha Hb) as Hab.
  simpl in Hab.
  apply comparator_numeric_before in Hab; [|exact Hnum].
  destruct Hab as [[Hpa Hpb]|[_ Hle]]; [congruence|].
  destruct (direction sortConfig); simpl in Hle; lra.
Qed.

Lemma sortProcesses_orders_numeric_field_witness :
  exists q s' out,
    sortProcesses (rt := Sample.engine) 1%positive Sample.by_cpu_desc
      {[ "idle" ]} Sample.store = (Normal q, s')
    /\ arrays s' !! q = Some out
    /\ forall i j a b,
         (i < j)%nat -> out !! i = Some a -> out !! j = Some b ->
         pinned {[ "idle" ]} a = pinned {[ "idle" ]} b ->
         (sort_key K_cpu_usage b <= sort_key K_cpu_usage a)%Q.
Proof.
  apply (sortProcesses_orders_numeric_field (rt := Sample.engine)
           1%positive Sample.by_cpu_desc {[ "idle" ]} Sample.store
           Sample.snapshot); reflexivity.
Defined.

(** X10. The direction only matters where the pins do not decide: for two
    records of the same pin status the descending comparator answers the
    negation of the ascending one, on every field; for two records of
    different pin status both answer alike. *)
Theorem comparator_direction_inverts {rt : Runtime}
    fld pinnedProcesses a b s :
  exists vAsc vDesc,
    result_in s (compareFn {| field := fld; direction := asc |}
                   pinnedProcesses a b) = Normal vAsc
    /\ result_in s (compareFn {| field := fld; direction := desc |}
                      pinnedProcesses a b) = Normal vDesc
    /\ (pinned pinnedProcesses a = pinned pinnedProcesses b ->
        (vDesc == - vAsc)%Q)
    /\ (pinned pinnedProcesses a <> pinned pinnedProcesses b ->
        vDesc = vAsc).
Proof.
  unfold result_in, compareFn, bind, isPinned_set, pinned. simpl.
  destruct (bool_decide (command a ∈ pinnedProcesses)),
    (bool_decide (command b ∈ pinnedProcesses)); simpl;
    try (eexists _, _; repeat split; try reflexivity; congruence);
    split_ifs;
    (eexists _, _; split; [reflexivity|]; split; [reflexivity|];
     split; [intros _ | congruence]).
  all: rewrite (mul_direction_desc _); reflexivity.
Qed.

Lemma comparator_direction_inverts_witness :
  exists vAsc vDesc,
    result_in Sample.store
      (compareFn (rt := Sample.engine)
         {| field := K_name; direction := asc |} ∅
         Sample.chrome Sample.idle) = Normal vAsc
    /\ result_in Sample.store
         (compareFn (rt := Sample.engine)
            {| field := K_name; direction := desc |} ∅
            Sample.chrome Sample.idle) = Normal vDesc
    /\ (vDesc == - vAsc)%Q.
Proof.
  destruct (comparator_direction_inverts (rt := Sample.engine)
              K_name ∅ Sample.chrome Sample.idle Sample.store)
    as (vAsc & vDesc & Ea & Ed & Hsame & _).
  exists vAsc, vDesc. split; [exact Ea|]. split; [exact Ed|].
  apply Hsame. reflexivity.
Defined.

(** X11. On the numeric fields and on [disk_usage] the comparator is
    antisymmetric: comparing the same two records the other way round
    answers the negated number (and comparing a record with itself, zero).
    The heuristic for [disk_usage] may break transitivity, not this. *)
Theorem comparator_antisymmetric {rt : Runtime}
    sortConfig pinnedProcesses a b s :
  numeric_field (field sortConfig) = true
  \/ field sortConfig = K_disk_usage ->
  exists vAB vBA,
    result_in s (compareFn sortConfig pinnedProcesses a b) = Normal vAB
    /\ result_in s (compareFn sortConfig pinnedProcesses b a) = Normal vBA
    /\ (vBA == - vAB)%Q.
Proof.
  intros Hfield. destruct sortConfig as [fld dir]. simpl in Hfield.
  unfold result_in, compareFn, bind, isPinned_set. simpl.
  destruct (bool_decide (command a ∈ pinnedProcesses)),
    (bool_decide (command b ∈ pinnedProcesses)); simpl.
  (* the pins decide *)
  2,3: (eexists _, _; (split; [reflexivity|]); (split; [reflexivity|]);
        reflexivity).
  all: destruct Hfield as [Hnum| ->].
  (* a numeric field: the directed difference *)
  1,3: (rewrite !bool_decide_eq_false_2 by (intros ->; discriminate Hnum);
        destruct fld; try discriminate Hnum; simpl;
        eexists _, _; (split; [reflexivity|]); (split; [reflexivity|]);
        rewrite mul_sub_antisym; reflexivity).
  (* disk_usage: the classification is symmetric in the two records *)
  all: simpl;
    destruct (disk_usage a) as [aRead aWrite],
      (disk_usage b) as [bRead bWrite]; simpl;
    generalize (inject_Z aRead) (inject_Z aWrite)
      (inject_Z bRead) (inject_Z bWrite);
    intros ar aw br bw;
    rewrite (add_comm br ar), (add_comm bw aw), (Qeq_bool_sym bw aw),
      (Qeq_bool_sym br ar),
      (Qeq_bool_sym (Double.add br bw) (Double.add ar aw));
    split_ifs;
    (eexists _, _; (split; [reflexivity|]); (split; [reflexivity|]);
     rewrite mul_sub_antisym; reflexivity).
Qed.

Lemma comparator_antisymmetric_witness :
  exists vAB vBA,
    result_in Sample.store
      (compareFn (rt := Sample.engine) Sample.by_disk_asc ∅
         Sample.recA Sample.recC) = Normal vAB
    /\ result_in Sample.store
         (compareFn (rt := Sample.engine) Sample.by_disk_asc ∅
            Sample.recC Sample.recA) = Normal vBA
    /\ (vBA == - vAB)%Q.
Proof.
  apply (comparator_antisymmetric (rt := Sample.engine)
           Sample.by_disk_asc ∅ Sample.recA Sample.recC Sample.store).
  right. reflexivity.
Defined.

Lemma isPinned_consistent_insert pinnedProcesses cache k :
  isPinned_consistent pinnedProcesses cache ->
  isPinned_consistent pinnedProcesses
    (<[k := bool_decide (k ∈ pinnedProcesses)]> cache).
Proof.
  intros Hc k' v. rewrite lookup_insert. case_decide as Hk.
  - intros [= <-]. subst k'. reflexivity.
  - apply Hc.
Qed.

(** The comparator keeps [isPinned] truthful. *)
Lemma compareFn_returns_consistent {rt : Runtime} h cache
    sortConfig pinnedProcesses a b :
  returns (fun s => sort_inv h cache s
                    /\ isPinned_consistent pinnedProcesses (isPinned s))
    (compareFn sortConfig pinnedProcesses a b)
    (comparator sortConfig pinnedProcesses a b).
Proof.
  intros s ((Hh & Hc) & Hp).
  assert (isPinned_consistent pinnedProcesses
            (<[command b := bool_decide (command b ∈ pinnedProcesses)]>
               (<[command a := bool_decide (command a ∈ pinnedProcesses)]>
                  (isPinned s)))) as Hp'
    by (apply isPinned_consistent_insert, isPinned_consistent_insert, Hp).
  unfold comparator, result_in, compareFn, bind, isPinned_set. simpl.
  split_ifs;
    (eexists; split; [reflexivity | split; [split; assumption | exact Hp']]).
Qed.

(** X12. Whatever [isPinned] held before, after [sortProcesses] each of its
    entries agrees with the pin set of this call: a command is recorded as
    pinned exactly when it is in the set, so no entry of an earlier sort
    with other pins survives. *)
Theorem sortProcesses_isPinned_truthful {rt : Runtime}
    processes sortConfig pinnedProcesses s P :
  arrays s !! processes = Some P ->
  exists q s',
    sortProcesses processes sortConfig pinnedProcesses s = (Normal q, s')
    /\ forall k v,
         isPinned s' !! k = Some v -> (v = true <-> k ∈ pinnedProcesses).
Proof.
  intros HP.
  set (q := fresh (dom (arrays s))).
  set (s1 := {| arrays := <[q := P]> (arrays s);
                regexCache := regexCache s; isPinned := ∅ |}).
  destruct (sort_elems_returns
              (fun s => sort_inv (arrays s1) (regexCache s1) s
                        /\ isPinned_consistent pinnedProcesses (isPinned s))
              (compareFn sortConfig pinnedProcesses)
              (comparator sortConfig pinnedProcesses) P
              (compareFn_returns_consistent _ _ sortConfig pinnedProcesses)
              s1)
    as (s2 & E2 & _ & Hp2).
  { split; [split; reflexivity|].
    intros k v Hk. simpl in Hk. rewrite lookup_empty in Hk. discriminate. }
  exists q. eexists.
  unfold sortProcesses, bind, isPinned_clear, array_read at 1. simpl.
  rewrite HP. unfold array_alloc. simpl. fold q. fold s1.
  unfold array_sort, bind, array_read. simpl.
  rewrite lookup_insert_eq. rewrite E2. unfold array_write, ret.
  split; [reflexivity|]. simpl.
  intros k v Hk. rewrite (Hp2 k v Hk).
  rewrite bool_decide_eq_true. reflexivity.
Qed.

Lemma sortProcesses_isPinned_truthful_witness :
  exists q s',
    sortProcesses (rt := Sample.engine) 1%positive Sample.by_cpu_desc
      {[ "idle" ]}
      {| arrays := {[ 1%positive := Sample.snapshot ]};
         regexCache := ∅;
         isPinned := {[ "idle" := false; "gone" := true ]} |}
    = (Normal q, s')
    /\ forall k v,
         isPinned s' !! k = Some v ->
         (v = true <-> k ∈ ({[ "idle" ]} : gset string)).
Proof.
  apply (sortProcesses_isPinned_truthful (rt := Sample.engine)
           1%positive Sample.by_cpu_desc {[ "idle" ]} _ Sample.snapshot).
  reflexivity.
Defined.

(** ** Filtering, then sorting *)

Lemma filterProcesses_keeps_input {rt : Runtime}
    processes searchTerm filters s P q s' :
  arrays s !! processes = Some P ->
  filterProcesses processes searchTerm filters s = (Normal q, s') ->
  arrays s' !! processes = Some P.
Proof.
  intros HP. unfold filterProcesses.
  destruct ((String.length searchTerm =? 0)%nat && negb (some_enabled filters)).
  - intros [= <- <-]. exact HP.
  - destruct (array_filter_completes (filter_frame (arrays s) (isPinned s))
                (filter_callback filters (search_terms searchTerm))
                (fun r => passes_clauses filters r = true) P
                (filter_callback_completes _ _ filters _) s)
      as (out & s1 & E1 & (Hh & Hp) & _).
    { split; reflexivity. }
    unfold bind, array_read. rewrite HP, E1. unfold array_alloc.
    intros [= <- <-]. simpl. rewrite Hh.
    rewrite lookup_insert_ne; [exact HP|].
    intros Heq. pose proof (is_fresh (dom (arrays s))) as Hf.
    rewrite Heq in Hf. apply Hf, elem_of_dom. rewrite HP. eauto.
Qed.

(** X13. Sorting what [filterProcesses] returned gives a new array that
    holds the records of the returned array rearranged, pinned ones first,
    and leaves both the returned array and the array that was filtered as
    they were - also on the early return, where the two are one array. *)
Theorem filter_then_sort {rt : Runtime}
    processes searchTerm filters sortConfig pinnedProcesses s P :
  arrays s !! processes = Some P ->
  exists filtered s1 records q s' out,
    filterProcesses processes searchTerm filters s = (Normal filtered, s1)
    /\ arrays s1 !! filtered = Some records
    /\ (let* filtered := filterProcesses processes searchTerm filters in
        sortProcesses filtered sortConfig pinnedProcesses) s = (Normal q, s')
    /\ arrays s' !! q = Some out
    /\ Permutation out records
    /\ (forall i j a b,
          out !! i = Some a -> out !! j = Some b ->
          command a ∈ pinnedProcesses -> command b ∉ pinnedProcesses ->
          (i < j)%nat)
    /\ q <> processes
    /\ q <> filtered
    /\ arrays s' !! processes = Some P
    /\ arrays s' !! filtered = Some records.
Proof.
  intros HP.
  destruct (filterProcesses_total processes searchTerm filters s P HP)
    as (q1 & s1 & records & Erun1 & Hout1 & _).
  pose proof (filterProcesses_keeps_input _ _ _ _ _ _ _ HP Erun1) as HP1.
  destruct (sortProcesses_run q1 sortConfig pinnedProcesses s1 _ Hout1)
    as (q & s' & Erun & Hfresh & Hout & Hframe & _).
  assert (q <> processes) as Hne by congruence.
  assert (q <> q1) as Hne1 by congruence.
  exists q1, s1, records, q, s',
    (sorted_by (comparator sortConfig pinnedProcesses) records).
  unfold bind. rewrite Erun1.
  split; [reflexivity|]. split; [exact Hout1|].
  split; [exact Erun|]. split; [exact Hout|].
  split; [apply sorted_by_perm|].
  split; [|split; [exact Hne|split; [exact Hne1|split]]].
  - intros i j a b Ha Hb Pa Pb.
    eapply pins_first_lookup;
      [apply sorted_by_pins_first | exact Ha | exact Hb | |].
    + unfold pinned. apply bool_decide_eq_true. exact Pa.
    + unfold pinned. apply bool_decide_eq_false. exact Pb.
  - rewrite Hframe by congruence. exact HP1.
  - rewrite Hframe by congruence. exact Hout1.
Qed.

Lemma filter_then_sort_witness :
  exists filtered s1 records q s' out,
    filterProcesses (rt := Sample.engine) 1%positive "chrome"
      Sample.no_filters Sample.store = (Normal filtered, s1)
    /\ arrays s1 !! filtered = Some records
    /\ (let* filtered :=
          filterProcesses (rt := Sample.engine) 1%positive "chrome"
            Sample.no_filters in
        sortProcesses (rt := Sample.engine) filtered Sample.by_cpu_desc
          {[ "idle" ]}) Sample.store = (Normal q, s')
    /\ arrays s' !! q = Some out
    /\ Permutation out records
    /\ (forall i j a b,
          out !! i = Some a -> out !! j = Some b ->
          command a ∈ ({[ "idle" ]} : gset string) ->
          command b ∉ ({[ "idle" ]} : gset string) ->
          (i < j)%nat)
    /\ q <> 1%positive
    /\ q <> filtered
    /\ arrays s' !! 1%positive = Some Sample.snapshot
    /\ arrays s' !! filtered = Some records.
Proof.
  apply (filter_then_sort (rt := Sample.engine) 1%positive "chrome"
           Sample.no_filters Sample.by_cpu_desc {[ "idle" ]} Sample.store
           Sample.snapshot).
  reflexivity.
Defined.

(** ** The filter tool bar *)

Lemma array_includes_In (arr : list string) (x : string) :
  Js.array_includes arr x = true <-> In x arr.
Proof.
  unfold Js.array_includes. rewrite existsb_exists. split.
  - intros (y & Hy & Heq). apply String.eqb_eq in Heq. subst y. exact Hy.
  - intros Hx. exists x. split; [exact Hx | apply String.eqb_refl].
Qed.

Lemma array_includes_not_In (arr : list string) (x : string) :
  Js.array_includes arr x = false -> ~ In x arr.
Proof.
  intros E Hin. apply array_includes_In in Hin. congruence.
Qed.

Lemma NoDup_snoc {A} (l : list A) (x : A) :
  ~ In x l -> NoDup l -> NoDup (l ++ [x]).
Proof.
  intros Hx Hl. apply NoDup_app. split; [exact Hl|]. split.
  - intros y Hy Hy'. apply list_elem_of_In in Hy.
    apply list_elem_of_In in Hy'. destruct Hy' as [<-|[]]. exact (Hx Hy).
  - apply NoDup_singleton.
Qed.

Lemma NoDup_List_filter {A} (g : A -> bool) (l : list A) :
  NoDup l -> NoDup (List.filter g l).
Proof.
  induction l as [|x l IH]; simpl; intros Hl; [constructor|].
  apply NoDup_cons in Hl as [Hx Hl].
  destruct (g x); [|exact (IH Hl)].
  apply NoDup_cons. split; [|exact (IH Hl)].
  intros Hin. apply Hx. apply list_elem_of_In in Hin.
  apply filter_In in Hin as [Hin _]. apply list_elem_of_In, Hin.
Qed.

Lemma toggle_status_well_formed (st : string) (c : StatusFilter) :
  In st statusOptions ->
  NoDup (values c) ->
  (forall v, In v (values c) -> In v statusOptions) ->
  status_enabled (toggle_status st c)
  = (0 <? length (values (toggle_status st c)))%nat
  /\ NoDup (values (toggle_status st c))
  /\ (forall v, In v (values (toggle_status st c)) -> In v statusOptions).
Proof.
  intros Hst Hnd Hsub. unfold toggle_status. simpl.
  split; [reflexivity|].
  destruct (Js.array_includes (values c) st) eqn:E.
  - split; [apply NoDup_List_filter, Hnd|].
    intros v Hv. apply filter_In in Hv as [Hv _]. exact (Hsub v Hv).
  - split; [apply NoDup_snoc; [apply array_includes_not_In, E | exact Hnd]|].
    intros v Hv. apply in_app_or in Hv as [Hv|[<-|[]]];
      [exact (Hsub v Hv) | exact Hst].
Qed.

Lemma handle_well_formed (filters : Filters) (e : Event) :
  event_from_markup e ->
  filters_well_formed filters -> filters_well_formed (handle filters e).
Proof.
  intros He (Hen & Hnd & Hsub & Hcpu & Hram & Hrun).
  destruct e as [k|k op|k v|st|]; simpl in *.
  - destruct k; unfold filters_well_formed; simpl; auto 10.
  - destruct k; unfold filters_well_formed, updateFilter; simpl; auto 10.
  - destruct k; unfold filters_well_formed, updateFilter; simpl; auto 10.
  - unfold updateFilter. simpl.
    destruct (toggle_status_well_formed st (status_filter filters) He Hnd Hsub)
      as (H1 & H2 & H3).
    unfold filters_well_formed. simpl. auto 10.
  - unfold filters_well_formed. simpl.
    split; [reflexivity|]. split; [constructor|].
    split; [intros st []|]. auto.
Qed.

(** X14. Whatever sequence of clicks and inputs the markup can deliver,
    starting from the default filters: the status clause is enabled exactly
    when a status is selected, the selection has no duplicates and only
    statuses of the buttons, and every numeric clause has one of the two
    operators of the [select]. *)
Theorem filters_well_formed_after_events (events : list Event) :
  Forall event_from_markup events ->
  filters_well_formed (filters_after events).
Proof.
  unfold filters_after.
  assert (filters_well_formed default_filters) as Hinit.
  { unfold filters_well_formed, default_filters, operators. simpl.
    split; [reflexivity|]. split; [constructor|].
    split; [intros st []|]. auto. }
  revert Hinit. generalize default_filters.
  induction events as [|e rest IH]; intros filters Hwf Hall; simpl.
  - exact Hwf.
  - apply Forall_cons in Hall as [He Hrest].
    apply IH; [apply handle_well_formed; assumption | exact Hrest].
Qed.

Lemma filters_well_formed_after_events_witness :
  filters_well_formed
    (filters_after
       [ClickStatus "Running"; ClickStatus "Zombie"; ClickToggle N_cpu;
        ChangeOperator N_cpu "<"; ClickStatus "Running"; InputValue N_ram 5;
        ClickStatus "Zombie"]).
Proof.
  apply filters_well_formed_after_events.
  repeat (apply Forall_cons; split); try apply Forall_nil; simpl; auto 10.
Defined.

Lemma filter_ne_not_In (x : string) (l : list string) :
  ~ In x l -> List.filter (fun v => negb (String.eqb v x)) l = l.
Proof.
  induction l as [|y l IH]; simpl; intros Hx; [reflexivity|].
  destruct (String.eqb_spec y x) as [->|Hne]; simpl.
  - exfalso. apply Hx. left. reflexivity.
  - rewrite IH by (intros Hin; apply Hx; right; exact Hin). reflexivity.
Qed.

Lemma filter_ne_snoc (x : string) (l : list string) :
  ~ In x l -> List.filter (fun v => negb (String.eqb v x)) (l ++ [x]) = l.
Proof.
  intros Hx. rewrite List.filter_app, filter_ne_not_In by exact Hx.
  simpl. rewrite String.eqb_refl. simpl. apply app_nil_r.
Qed.

Lemma filter_ne_perm (x : string) (l : list string) :
  NoDup l -> In x l ->
  Permutation (List.filter (fun v => negb (String.eqb v x)) l ++ [x]) l.
Proof.
  induction l as [|y l IH]; simpl; intros Hnd Hin; [destruct Hin|].
  apply NoDup_cons in Hnd as [Hy Hnd].
  destruct (String.eqb_spec y x) as [->|Hne]; simpl.
  - rewrite filter_ne_not_In
      by (intros Hx; apply Hy, list_elem_of_In, Hx).
    symmetry. apply Permutation_cons_append.
  - destruct Hin as [->|Hin]; [congruence|].
    rewrite (IH Hnd Hin). reflexivity.
Qed.

Lemma filter_ne_excludes (x : string) (l : list string) :
  Js.array_includes (List.filter (fun v => negb (String.eqb v x)) l) x = false.
Proof.
  destruct (Js.array_includes _ x) eqn:E; [|reflexivity].
  apply array_includes_In, filter_In in E as [_ E].
  rewrite String.eqb_refl in E. discriminate.
Qed.

(** X15. Clicking the same status button twice undoes itself: the same
    statuses are selected as before (in the same order when the status was
    not selected at the start), the status clause is enabled as before, and
    the numeric clauses are not touched. *)
Theorem status_click_twice_restores (st : string) (filters : Filters) :
  NoDup (values (status_filter filters)) ->
  status_enabled (status_filter filters)
  = (0 <? length (values (status_filter filters)))%nat ->
  exists filters'',
    updateFilter F_status "values" (ArgString st)
      (updateFilter F_status "values" (ArgString st) filters) = filters''
    /\ Permutation (values (status_filter filters''))
                   (values (status_filter filters))
    /\ (~ In st (values (status_filter filters)) ->
        values (status_filter filters'') = values (status_filter filters))
    /\ status_enabled (status_filter filters'')
       = status_enabled (status_filter filters)
    /\ cpu filters'' = cpu filters
    /\ ram filters'' = ram filters
    /\ runtime filters'' = runtime filters.
Proof.
  intros Hnd Hen. eexists. split; [reflexivity|].
  unfold updateFilter, toggle_status. simpl.
  destruct (Js.array_includes (values (status_filter filters)) st) eqn:E;
    simpl.
  - apply array_includes_In in E.
    rewrite filter_ne_excludes. simpl.
    split; [apply filter_ne_perm; assumption|].
    split; [intros Hnot; contradiction|].
    split; [|auto].
    rewrite Hen, length_app. simpl.
    destruct (values (status_filter filters)) as [|v vs]; [destruct E|].
    simpl. destruct (length _ + 1)%nat eqn:El; [lia | reflexivity].
  - pose proof (array_includes_not_In _ _ E) as Hnot.
    assert (Js.array_includes (values (status_filter filters) ++ [st]) st
            = true) as ->.
    { apply array_includes_In, in_or_app. right. left. reflexivity. }
    simpl. rewrite filter_ne_snoc by exact Hnot.
    split; [reflexivity|]. split; [reflexivity|].
    split; [symmetry; exact Hen | auto].
Qed.

Lemma status_click_twice_restores_witness :
  exists filters'',
    updateFilter F_status "values" (ArgString "Zombie")
      (updateFilter F_status "values" (ArgString "Zombie")
         (filters_after [ClickStatus "Zombie"; ClickStatus "Running"]))
    = filters''
    /\ Permutation (values (status_filter filters''))
                   ["Zombie"; "Running"]
    /\ status_enabled (status_filter filters'') = true.
Proof.
  destruct (status_click_twice_restores "Zombie"
              (filters_after [ClickStatus "Zombie"; ClickStatus "Running"]))
    as (f'' & E & Hperm & _ & Hen & _).
  - apply (bool_decide_unpack _). vm_compute. exact I.
  - reflexivity.
  - exists f''. auto.
Defined.

Lemma filter_implies_sublist {A} (g g' : A -> bool) (l : list A) :
  (forall x, g x = true -> g' x = true) ->
  List.filter g l `sublist_of` List.filter g' l.
Proof.
  intros Himp. induction l as [|x l IH]; simpl; [constructor|].
  destruct (g x) eqn:E.
  - rewrite (Himp x E). constructor. exact IH.
  - destruct (g' x); [constructor|]; exact IH.
Qed.

(** X16. After [clearAllFilters] no clause restricts anything, whatever
    had been set: with the empty search string [filterProcesses] takes the
    early return, and with any other it keeps exactly the records that a
    search term matches. *)
Theorem clearAllFilters_lifts_every_clause {rt : Runtime}
    processes searchTerm filters s P :
  regexCache_coherent (regexCache s) ->
  arrays s !! processes = Some P ->
  hasActiveFilters (clearAllFilters filters) = false
  /\ activeFilterCount (clearAllFilters filters) = 0%nat
  /\ filterProcesses processes EmptyString (clearAllFilters filters) s
     = (Normal processes, s)
  /\ exists q s',
       filterProcesses processes searchTerm (clearAllFilters filters) s
       = (Normal q, s')
       /\ arrays s' !! q
          = Some (List.filter
                    (fun r =>
                       (length (search_terms searchTerm) =? 0)%nat
                       || existsb (term_matches r) (search_terms searchTerm))
                    P).
Proof.
  intros Hc HP.
  split; [reflexivity|]. split; [reflexivity|]. split; [reflexivity|].
  destruct (filterProcesses_run processes searchTerm (clearAllFilters filters)
              s P Hc HP)
    as (q & s' & Erun & Hout & _).
  exists q, s'. split; [exact Erun|]. rewrite Hout. f_equal.
Qed.

Lemma clearAllFilters_lifts_every_clause_witness :
  filterProcesses (rt := Sample.engine) 1%positive EmptyString
    (clearAllFilters Sample.busy_filters) Sample.store
  = (Normal 1%positive, Sample.store).
Proof.
  apply (clearAllFilters_lifts_every_clause (rt := Sample.engine)
           1%positive "chrome" Sample.busy_filters Sample.store
           Sample.snapshot).
  - apply regexCache_coherent_empty.
  - reflexivity.
Defined.

(** X17. Switching a numeric clause off with [toggleFilter] can only add
    records: what [filterProcesses] returned with the clause enabled is a
    subsequence of what it returns, from the same store, with the clause
    toggled. *)
Theorem toggleFilter_off_only_adds_records {rt : Runtime}
    processes searchTerm filters (k : NumericKey) s P :
  regexCache_coherent (regexCache s) ->
  arrays s !! processes = Some P ->
  enabled (match k with
           | N_cpu => cpu filters
           | N_ram => ram filters
           | N_runtime => runtime filters
           end) = true ->
  exists q1 s1 out1 q2 s2 out2,
    filterProcesses processes searchTerm filters s = (Normal q1, s1)
    /\ arrays s1 !! q1 = Some out1
    /\ filterProcesses processes searchTerm
         (toggleFilter (filterKey k) filters) s = (Normal q2, s2)
    /\ arrays s2 !! q2 = Some out2
    /\ out1 `sublist_of` out2.
Proof.
  intros Hc HP Hen.
  destruct (filterProcesses_run processes searchTerm filters s P Hc HP)
    as (q1 & s1 & Erun1 & Hout1 & _).
  destruct (filterProcesses_run processes searchTerm
              (toggleFilter (filterKey k) filters) s P Hc HP)
    as (q2 & s2 & Erun2 & Hout2 & _).
  eexists q1, s1, _, q2, s2, _.
  split; [exact Erun1|]. split; [exact Hout1|].
  split; [exact Erun2|]. split; [exact Hout2|].
  apply filter_implies_sublist. intros r. unfold kept.
  rewrite !andb_true_iff. intros [Hpass Hsearch]. split; [|exact Hsearch].
  unfold passes_clauses in *.
  repeat (apply andb_true_iff in Hpass as [Hpass ?]).
  destruct k; simpl in *; unfold clause_passes in *; simpl;
    rewrite ?Hen; simpl;
    repeat (apply andb_true_iff; split); assumption || reflexivity.
Qed.

Lemma toggleFilter_off_only_adds_records_witness :
  exists q1 s1 out1 q2 s2 out2,
    filterProcesses (rt := Sample.engine) 1%positive "chrome"
      Sample.busy_filters Sample.store = (Normal q1, s1)
    /\ arrays s1 !! q1 = Some out1
    /\ filterProcesses (rt := Sample.engine) 1%positive "chrome"
         (toggleFilter F_cpu Sample.busy_filters) Sample.store
       = (Normal q2, s2)
    /\ arrays s2 !! q2 = Some out2
    /\ out1 `sublist_of` out2.
Proof.
  apply (toggleFilter_off_only_adds_records (rt := Sample.engine)
           1%positive "chrome" Sample.busy_filters N_cpu Sample.store
           Sample.snapshot).
  - apply regexCache_coherent_empty.
  - reflexivity.
  - reflexivity.
Defined.

(** ** The pattern cache only grows *)

Section CacheGrows.
Context {rt : Runtime}.
Variable cache0 : gmap string RegExp.

Local Abbreviation grows := (fun s : State => cache0 ⊆ regexCache s).

Lemma term_callback_cache_grows process nameLower commandLower pidString term :
  completes grows
    (term_callback process nameLower commandLower pidString term)
    (fun _ => True).
Proof.
  intros s Hs. unfold term_callback.
  destruct (Js.includes _ _ || Js.includes _ _ || Js.includes _ _).
  { exists true, s. auto. }
  unfold try_catch, bind, regexCache_get.
  destruct (regexCache s !! term) as [regex|] eqn:Hget.
  - eexists _, s. split; [reflexivity | auto].
  - unfold new_RegExp. destruct (regexp_syntax_ok term); simpl.
    + eexists _, _. split; [reflexivity|]. split; [|exact I]. simpl.
      etransitivity; [exact Hs|]. apply insert_subseteq, Hget.
    + eexists _, s. split; [reflexivity | auto].
Qed.

Lemma filter_callback_cache_grows filters terms process :
  completes grows (filter_callback filters terms process) (fun _ => True).
Proof.
  rewrite filter_callback_clauses.
  destruct (passes_clauses filters process);
    [|apply completes_ret; exact I].
  destruct (length terms =? 0)%nat; [apply completes_ret; exact I|].
  apply array_some_completes. intros term.
  apply term_callback_cache_grows.
Qed.

End CacheGrows.

(** X18. [filterProcesses] never drops or replaces a cached pattern: every
    entry of [regexCache] before the call is there, unchanged, after it. *)
Theorem filterProcesses_keeps_cached_patterns {rt : Runtime}
    processes searchTerm filters s P :
  arrays s !! processes = Some P ->
  exists q s',
    filterProcesses processes searchTerm filters s = (Normal q, s')
    /\ forall term regex,
         regexCache s !! term = Some regex ->
         regexCache s' !! term = Some regex.
Proof.
  intros HP. unfold filterProcesses.
  destruct ((String.length searchTerm =? 0)%nat && negb (some_enabled filters)).
  - exists processes, s. auto.
  - destruct (array_filter_completes (fun s' => regexCache s ⊆ regexCache s')
                (filter_callback filters (search_terms searchTerm))
                (fun _ => True) P) with (s := s)
      as (out & s1 & E1 & Hsub & _).
    { intros r. eapply completes_weaken;
        [apply filter_callback_cache_grows | auto]. }
    { reflexivity. }
    unfold bind, array_read. rewrite HP, E1. unfold array_alloc.
    eexists _, _. split; [reflexivity|]. simpl.
    intros term regex Hget.
    exact (lookup_weaken _ _ _ _ Hget Hsub).
Qed.

Lemma filterProcesses_keeps_cached_patterns_witness :
  exists q s',
    filterProcesses (rt := Sample.engine) 1%positive "CHR, IDL"
      Sample.no_filters
      {| arrays := {[ 1%positive := Sample.snapshot ]};
         regexCache := {[ "CHR" := mkRegExp "CHR" ]};
         isPinned := ∅ |} = (Normal q, s')
    /\ forall term regex,
         regexCache
           {| arrays := {[ 1%positive := Sample.snapshot ]};
              regexCache := {[ "CHR" := mkRegExp "CHR" ]};
              isPinned := ∅ |} !! term = Some regex ->
         regexCache s' !! term = Some regex.
Proof.
  apply (filterProcesses_keeps_cached_patterns (rt := Sample.engine)
           1%positive "CHR, IDL" Sample.no_filters
           {| arrays := {[ 1%positive := Sample.snapshot ]};
              regexCache := {[ "CHR" := mkRegExp "CHR" ]};
              isPinned := ∅ |}
           Sample.snapshot).
  reflexivity.
Defined.
